(** * legionJS [Class]: the class-extension engine of [src/legion/class.js]

    The engine is JavaScript that allocates objects, walks prototype chains,
    stores closures in objects and calls them back.  The development below
    embeds it in three layers.

    - A small object store: objects with a prototype link, ordered own
      properties with an [enumerable] attribute, an optional call slot and,
      for arrays, their elements.
    - A type [prog] of programs over that store, written in
      continuation-passing style, with one constructor per JavaScript
      operation the engine performs ([o[k]], [o[k] = v], [k in o],
      [for (k in o)], [typeof v === 'function'], [instanceof], function and
      object literals, calls, [new], [throw]), and an interpreter [run] with
      call-depth fuel.
    - The functions of [class.js] ([createParent], [extend], [implement],
      [_extendSingle], [init], [mixin], [_bindGame], [serialize]) transcribed
      statement by statement into [prog].

    Scope of the store model (ES5, strict mode, as the file declares):
    data properties only (no accessors, every property writable, every
    object extensible); numbers are integers; array elements are not
    reassigned; a function object carries [prototype] but not [length] or
    [name]; property reads on boolean, number and string primitives, and
    the string conversion of an object used as a property key, are outside
    the model and surface as the outcome [Unmodelled]. *)

From Stdlib Require Import ZArith List Lia.
From stdpp Require Import base list strings gmap pretty.

Open Scope string_scope.
Open Scope list_scope.

(** ** Values *)

Abbreviation loc := nat (only parsing).

Inductive value : Type :=
| VUndef
| VNull
| VBool (b : bool)
| VNum (n : Z)
| VStr (s : string)
| VObj (l : loc).

#[global] Instance value_eq_dec : EqDecision value.
Proof. solve_decision. Defined.

(** [ToBoolean]. *)
Definition truthy (v : value) : bool :=
  match v with
  | VUndef | VNull => false
  | VBool b => b
  | VNum n => negb (n =? 0)%Z
  | VStr s => negb (String.eqb s "")
  | VObj _ => true
  end.

(** [v === null]. *)
Definition is_null (v : value) : bool :=
  match v with VNull => true | _ => false end.

(** [ToString] of a primitive used as a property key. *)
Definition to_key (v : value) : option string :=
  match v with
  | VUndef => Some "undefined"
  | VNull => Some "null"
  | VBool true => Some "true"
  | VBool false => Some "false"
  | VNum n => Some (pretty n)
  | VStr s => Some s
  | VObj _ => None
  end.

(** The [i]-th actual argument; a missing argument reads as [undefined]. *)
Definition arg (i : nat) (args : list value) : value := nth i args VUndef.

(** ** Programs *)

Inductive prog : Type :=
| Done (v : value)                                         (* return v *)
| Throw (v : value)                                        (* throw v *)
| Beyond                                                   (* outside the model *)
| GetP (o : value) (key : string) (k : value -> prog)      (* o[key] *)
| SetP (o : value) (key : string) (v : value) (k : prog)   (* o[key] = v *)
| HasP (key : string) (o : value) (k : bool -> prog)       (* key in o *)
| ForIn (o : value) (k : list string -> prog)              (* keys of for (key in o) *)
| IsFun (v : value) (k : bool -> prog)                     (* typeof v === 'function' *)
| InstOf (v : value) (p : loc) (k : bool -> prog)          (* v instanceof C, p = C.prototype *)
| MkObj (fields : list (string * value)) (k : value -> prog) (* { key: v, ... } *)
| MkArr (items : list value) (k : value -> prog)           (* [v, ...] *)
| MkFun (body : value -> list value -> prog) (k : value -> prog) (* function () {...} *)
| Call (f this : value) (args : list value) (k : value -> prog)  (* f.apply(this, args) *)
| New (f : value) (args : list value) (k : value -> prog)  (* new f(args) *)
| GetExtending (k : value -> prog)                         (* read the closure variable *)
| SetExtending (v : value) (k : prog)                      (* extending = v *)
| Register (name : value) (T : value) (k : prog)           (* legion._classes[name] = T *)
| Log (k : prog).                                          (* legion.log(strings[legion.locale].unsafeMixin) *)

Definition fnbody : Type := value -> list value -> prog.

Declare Scope prog_scope.
Delimit Scope prog_scope with prog.
Notation "'let*' x ':=' c 'in' k" := (c (fun x => k))
  (at level 10, x name, c at level 100, k at level 200, only parsing) : prog_scope.
Notation "c ';;' k" := (c k)
  (at level 100, k at level 200, right associativity, only parsing) : prog_scope.

(** [for (var key in o) { body }], once the keys are known. *)
Fixpoint for_each (keys : list string) (body : string -> prog -> prog) (k : prog) : prog :=
  match keys with
  | [] => k
  | key :: rest => body key (for_each rest body k)
  end.

(** ** The object store *)

Record prop : Type := mkProp { pval : value; penum : bool }.

Record obj : Type := mkObj {
  proto : option loc;                 (* [[Prototype]] *)
  props : list (string * prop);       (* own properties, in insertion order *)
  code : option fnbody;               (* [[Call]], for function objects *)
  elems : option (list value)         (* elements, for array objects *)
}.

Abbreviation heap := (list obj) (only parsing).

(** The three objects every realm starts with. *)
Definition objproto : loc := 0.
Definition funproto : loc := 1.
Definition arrproto : loc := 2.

(** First binding of [key] in an association list. *)
Fixpoint assoc {A} (key : string) (ps : list (string * A)) : option A :=
  match ps with
  | [] => None
  | (k, a) :: rest => if String.eqb k key then Some a else assoc key rest
  end.

(** Assignment to an own property: an existing one keeps its place and its
    attributes, a new one is appended as enumerable. *)
Fixpoint put (key : string) (v : value) (ps : list (string * prop)) : list (string * prop) :=
  match ps with
  | [] => [(key, mkProp v true)]
  | (k, p) :: rest =>
      if String.eqb k key then (k, mkProp v (penum p)) :: rest
      else (k, p) :: put key v rest
  end.

(** The index properties and [length] an array shows. *)
Definition array_props (vs : list value) : list (string * prop) :=
  imap (fun i v => (pretty i, mkProp v true)) vs
    ++ [("length", mkProp (VNum (Z.of_nat (length vs))) false)].

Definition own_props (o : obj) : list (string * prop) :=
  match elems o with
  | Some vs => array_props vs ++ props o
  | None => props o
  end.

Definition own (o : obj) (key : string) : option prop := assoc key (own_props o).

(** The prototype link of the object at [l].  Objects only ever inherit from
    objects allocated before them, which is what makes the walks below
    terminate; a link that points forward is not followed. *)
Definition parent_of (h : heap) (l : loc) : option loc :=
  match h !! l with
  | Some o =>
      match proto o with
      | Some l' => if (l' <? l)%nat then Some l' else None
      | None => None
      end
  | None => None
  end.

(** [[GetProperty]]: own properties first, then up the prototype chain. *)
Fixpoint find_prop (n : nat) (h : heap) (l : loc) (key : string) : option prop :=
  match h !! l with
  | None => None
  | Some o =>
      match own o key with
      | Some p => Some p
      | None =>
          match n, parent_of h l with
          | S n', Some l' => find_prop n' h l' key
          | _, _ => None
          end
      end
  end.

Definition get_prop (h : heap) (l : loc) (key : string) : value :=
  match find_prop l h l key with
  | Some p => pval p
  | None => VUndef
  end.

Definition has_prop (h : heap) (l : loc) (key : string) : bool :=
  match find_prop l h l key with
  | Some _ => true
  | None => false
  end.

(** Is [p] on the prototype chain of the object at [l]? *)
Fixpoint on_chain (n : nat) (h : heap) (l p : loc) : bool :=
  match parent_of h l with
  | Some l' =>
      (l' =? p)%nat || match n with S n' => on_chain n' h l' p | 0 => false end
  | None => false
  end.

Definition instance_of (h : heap) (v : value) (p : loc) : bool :=
  match v with
  | VObj l => on_chain l h l p
  | _ => false
  end.

Definition callee (h : heap) (v : value) : option fnbody :=
  match v with
  | VObj l => match h !! l with Some o => code o | None => None end
  | _ => None
  end.

Definition is_fun (h : heap) (v : value) : bool :=
  match callee h v with Some _ => true | None => false end.

(** One object's contribution to a [for-in] enumeration: its own keys not
    seen lower in the chain; each becomes seen, the enumerable ones are
    produced. *)
Fixpoint visit (ps : list (string * prop)) (seen : list string)
  : list string * list string :=
  match ps with
  | [] => ([], seen)
  | (k, p) :: rest =>
      if bool_decide (k ∈ seen) then visit rest seen
      else
        let '(out, seen') := visit rest (k :: seen) in
        (if penum p then k :: out else out, seen')
  end.

Fixpoint enum_chain (n : nat) (h : heap) (l : loc) (seen : list string) : list string :=
  match h !! l with
  | None => []
  | Some o =>
      let '(out, seen') := visit (own_props o) seen in
      out ++ match n, parent_of h l with
             | S n', Some l' => enum_chain n' h l' seen'
             | _, _ => []
             end
  end.

(** The keys [for (key in v)] runs through; [None] for a string primitive,
    whose index properties are not modelled. *)
Definition for_in_keys (h : heap) (v : value) : option (list string) :=
  match v with
  | VObj l => Some (enum_chain l h l [])
  | VStr _ => None
  | _ => Some []
  end.

(** [o[key] = v] on the object at [l]; [None] when there is no plain object
    there. *)
Definition store (h : heap) (l : loc) (key : string) (v : value) : option heap :=
  match h !! l with
  | Some o =>
      match elems o with
      | Some _ => None
      | None =>
          Some (<[l := mkObj (proto o) (put key v (props o)) (code o) None]> h)
      end
  | None => None
  end.

Definition literal (fields : list (string * value)) : obj :=
  mkObj (Some objproto) (fold_left (fun ps kv => put kv.1 kv.2 ps) fields []) None None.

Definition array (items : list value) : obj :=
  mkObj (Some arrproto) [] None (Some items).

(** A function expression allocates the function's [prototype] object and
    then the function object itself. *)
Definition fresh_prototype (f : loc) : obj :=
  mkObj (Some objproto) [("constructor", mkProp (VObj f) false)] None None.

Definition closure (body : fnbody) (p : loc) : obj :=
  mkObj (Some funproto) [("prototype", mkProp (VObj p) false)] (Some body) None.

(** The object [new f] starts from: it inherits from [f.prototype] when that
    is an object and from [Object.prototype] otherwise. *)
Definition instance (h : heap) (f : loc) : obj :=
  mkObj (Some match get_prop h f "prototype" with VObj p => p | _ => objproto end)
        [] None None.

(** ** Machine state and outcomes *)

Record state : Type := mkState {
  st_heap : heap;
  st_extending : value;               (* the closure variable [extending] *)
  st_classes : gmap string value;     (* [legion._classes] *)
  st_log : list value;                (* what [legion.log] was called with *)
  st_warning : value                  (* [strings[legion.locale].unsafeMixin] *)
}.

Definition with_heap (st : state) (h : heap) : state :=
  mkState h (st_extending st) (st_classes st) (st_log st) (st_warning st).

Inductive thrown : Type :=
| Raised (v : value)                  (* a [throw] of the program *)
| TypeError.                          (* raised by the runtime *)

Inductive outcome : Type :=
| Ret (v : value) (st : state)
| Exn (e : thrown) (st : state)
| OutOfFuel
| Unmodelled.

(** ** The interpreter

    [exec call p st] runs [p] from [st], handing the body of every function
    it calls to [call]; [run n] closes the knot with [n] levels of nested
    calls. *)
Fixpoint exec (call : prog -> state -> outcome) (p : prog) (st : state) : outcome :=
  let h := st_heap st in
  match p with
  | Done v => Ret v st
  | Throw v => Exn (Raised v) st
  | Beyond => Unmodelled
  | GetP o key k =>
      match o with
      | VObj l => exec call (k (get_prop h l key)) st
      | VUndef | VNull => Exn TypeError st
      | _ => Unmodelled
      end
  | SetP o key v k =>
      match o with
      | VObj l =>
          match h !! l with
          | None => Exn TypeError st
          | Some _ =>
              match store h l key v with
              | Some h' => exec call k (with_heap st h')
              | None => Unmodelled
              end
          end
      | _ => Exn TypeError st
      end
  | HasP key o k =>
      match o with
      | VObj l => exec call (k (has_prop h l key)) st
      | _ => Exn TypeError st
      end
  | ForIn o k =>
      match for_in_keys h o with
      | Some keys => exec call (k keys) st
      | None => Unmodelled
      end
  | IsFun v k => exec call (k (is_fun h v)) st
  | InstOf v p k => exec call (k (instance_of h v p)) st
  | MkObj fields k =>
      exec call (k (VObj (length h))) (with_heap st (h ++ [literal fields]))
  | MkArr items k =>
      exec call (k (VObj (length h))) (with_heap st (h ++ [array items]))
  | MkFun body k =>
      let p := length h in
      exec call (k (VObj (S p)))
           (with_heap st (h ++ [fresh_prototype (S p); closure body p]))
  | Call f this args k =>
      match callee h f with
      | None => Exn TypeError st
      | Some body =>
          match call (body this args) st with
          | Ret v st' => exec call (k v) st'
          | other => other
          end
      end
  | New f args k =>
      match f, callee h f with
      | VObj lf, Some body =>
          let o := length h in
          match call (body (VObj o) args) (with_heap st (h ++ [instance h lf])) with
          | Ret (VObj r) st' => exec call (k (VObj r)) st'
          | Ret _ st' => exec call (k (VObj o)) st'
          | other => other
          end
      | _, _ => Exn TypeError st
      end
  | GetExtending k => exec call (k (st_extending st)) st
  | SetExtending v k =>
      exec call k (mkState h v (st_classes st) (st_log st) (st_warning st))
  | Register name T k =>
      match to_key name with
      | Some s =>
          exec call k (mkState h (st_extending st) (<[s := T]> (st_classes st))
                               (st_log st) (st_warning st))
      | None => Unmodelled
      end
  | Log k =>
      exec call k (mkState h (st_extending st) (st_classes st)
                           (st_log st ++ [st_warning st]) (st_warning st))
  end.

Fixpoint run (n : nat) : prog -> state -> outcome :=
  exec (match n with
        | 0 => fun _ _ => OutOfFuel
        | S n' => run n'
        end).

(** ** The engine: [src/legion/class.js]

    The module first binds [extend], [implement] and [_extendSingle]; the
    function objects they denote are the first three the module allocates
    (see [module_layout] below), and the bodies refer to them by these
    names, as the source does through its closure. *)

Definition extend_ref : value := VObj 4.
Definition implement_ref : value := VObj 6.
Definition _extendSingle_ref : value := VObj 8.

Local Open Scope prog_scope.

(** [createParent(childFunction, parentFunction)]: the body of the function
    it returns. *)
Definition createParent (childFunction parentFunction : value) : fnbody :=
  fun this arguments =>
    let* tmp := GetP this "parent" in
    SetP this "parent" parentFunction ;;
    let* returnValue := Call childFunction this arguments in
    SetP this "parent" tmp ;;
    Done returnValue.

(** [extend(child)]. *)
Definition extend : fnbody :=
  fun this arguments =>
    let child := arg 0 arguments in
    let* is_object := InstOf child objproto in
    if is_object : bool then
      let* f := GetP this "_extendSingle" in
      let* r := Call f this [child] in
      Done r
    else Done VUndef.

(** [i < v] for a loop counter [i]; [None] where [v] would first have to be
    converted from a string or an object. *)
Definition less_than (i : nat) (v : value) : option bool :=
  match v with
  | VNum n => Some (Z.of_nat i <? n)%Z
  | VBool b => Some (Z.of_nat i <? (if b then 1 else 0))%Z
  | VUndef | VNull => Some false
  | VStr _ | VObj _ => None
  end.

(** The loop of [implement].  [fuel] only makes the recursion structural:
    it starts at the array's length, which the loop re-reads on every turn
    as the source does. *)
Fixpoint implement_loop (fuel : nat) (child : value) (i : nat) (_this : value) : prog :=
  let* len := GetP child "length" in
  match less_than i len with
  | Some true =>
      match fuel with
      | S fuel' =>
          let* f := GetP _this "_extendSingle" in
          let* item := GetP child (pretty i) in
          let* r := Call f _this [item] in
          implement_loop fuel' child (S i) r
      | 0 => Beyond
      end
  | Some false => Done _this
  | None => Beyond
  end.

Definition loop_bound (len : value) : nat :=
  match len with VNum n => Z.to_nat n | _ => 0 end.

(** [implement(child)]. *)
Definition implement : fnbody :=
  fun this arguments =>
    let child := arg 0 arguments in
    let* is_array := InstOf child arrproto in
    if is_array : bool then
      let* len := GetP child "length" in
      implement_loop (loop_bound len) child 0 this
    else
      let* f := GetP this "_extendSingle" in
      let* r := Call f this [child] in
      Done r.

(** The constructor every Type is: [var Class = function() {...}]. *)
Definition Class : fnbody :=
  fun this arguments =>
    let* extending := GetExtending in
    if negb (truthy extending) then
      let* init := GetP this "init" in
      let* _ := Call init this arguments in
      Done VUndef
    else Done VUndef.

(** The body of the [for (var key in child)] loop of [_extendSingle]. *)
Definition assign_property (Class_ child : value) (key : string) (k : prog) : prog :=
  let plain :=
    let* prototype := GetP Class_ "prototype" in
    let* child_value := GetP child key in
    SetP prototype key child_value ;; k in
  let* child_value := GetP child key in
  let* child_is_function := IsFun child_value in
  if child_is_function : bool then
    let* prototype := GetP Class_ "prototype" in
    let* old_value := GetP prototype key in
    let* old_is_function := IsFun old_value in
    if old_is_function : bool then
      let* target := GetP Class_ "prototype" in
      let* childFunction := GetP child key in
      let* prototype := GetP Class_ "prototype" in
      let* parentFunction := GetP prototype key in
      let* wrapper := MkFun (createParent childFunction parentFunction) in
      SetP target key wrapper ;; k
    else plain
  else plain.

(** The last statement of [_extendSingle] but one:
    [legion._classes[Class.prototype.className] = Class], and the return. *)
Definition register_class (Class_ : value) : prog :=
  let* prototype := GetP Class_ "prototype" in
  let* className := GetP prototype "className" in
  Register className Class_ ;;
  Done Class_.

(** [_extendSingle] from [extending = true; Class.prototype = new this()]
    on, [child] being by now the object whose properties are copied. *)
Definition build_prototype (this Class_ child : value) : prog :=
  SetExtending (VBool true) ;;
  let* p := New this [] in
  SetP Class_ "prototype" p ;;
  SetExtending (VBool false) ;;
  let* keys := ForIn child in
  for_each keys (assign_property Class_ child) (register_class Class_).

(** [_extendSingle(child)]. *)
Definition _extendSingle : fnbody :=
  fun this arguments =>
    let child := arg 0 arguments in
    let* Class_ := MkFun Class in
    SetP Class_ "extend" extend_ref ;;
    SetP Class_ "_extendSingle" _extendSingle_ref ;;
    SetP Class_ "implement" implement_ref ;;
    let* child_is_function := IsFun child in
    if child_is_function : bool then
      SetExtending (VBool true) ;;
      let* instance_of_child := New child [] in
      SetExtending (VBool false) ;;
      build_prototype this Class_ instance_of_child
    else build_prototype this Class_ child.

(** [init(properties)]. *)
Definition init : fnbody :=
  fun this arguments =>
    let properties := arg 0 arguments in
    let* mixin := GetP this "mixin" in
    let* _ := Call mixin this [properties; VBool true] in
    Done VUndef.

(** The body of the [for (var key in properties)] loop of [mixin]. *)
Definition mixin_step (this properties safe : value) (key : string) (k : prog) : prog :=
  let assign :=
    let* v := GetP properties key in
    SetP this key v ;; k in
  let* value := GetP properties key in
  let* is_function := IsFun value in
  if negb is_function then assign
  else
    let* present := HasP key this in
    if (negb present || negb (truthy safe))%bool then assign
    else Log ;; k.

(** [mixin(properties, safe)]. *)
Definition mixin : fnbody :=
  fun this arguments =>
    let properties := arg 0 arguments in
    let safe := arg 1 arguments in
    let* keys := ForIn properties in
    for_each keys (mixin_step this properties safe) (Done this).

(** [_bindGame(game)]. *)
Definition _bindGame : fnbody :=
  fun this arguments =>
    let game := arg 0 arguments in
    SetP this "game" game ;;
    if truthy game then
      let* id := GetP this "id" in
      let* _ :=
        (fun k : value -> prog =>
           if is_null id then
             let* allocator := GetP game "_getObjectID" in
             let* fresh := Call allocator game [] in
             SetP this "id" fresh ;;
             k VUndef
           else k VUndef) in
      let* clientID := GetP this "clientID" in
      if is_null clientID then
        let* owner := GetP game "clientID" in
        SetP this "clientID" owner ;;
        Done VUndef
      else Done VUndef
    else Done VUndef.

(** [serialize()]. *)
Definition serialize : fnbody :=
  fun this arguments =>
    let* id := GetP this "id" in
    let* clientID := GetP this "clientID" in
    let* className := GetP this "className" in
    let* record := MkObj [("id", id); ("clientID", clientID); ("className", className)] in
    Done record.

(** The module body: the three bindings, then
    [return _extendSingle.call(function() {}, { className: 'Class', ... })]. *)
Definition module_main : prog :=
  let* extend_ := MkFun extend in
  let* implement_ := MkFun implement in
  let* _extendSingle_ := MkFun _extendSingle in
  let* base := MkFun (fun _ _ => Done VUndef) in
  let* init_ := MkFun init in
  let* mixin_ := MkFun mixin in
  let* _bindGame_ := MkFun _bindGame in
  let* serialize_ := MkFun serialize in
  let* definition :=
    MkObj [("className", VStr "Class"); ("game", VNull); ("id", VNull);
           ("clientID", VNull); ("init", init_); ("mixin", mixin_);
           ("_bindGame", _bindGame_); ("serialize", serialize_)] in
  let* r := Call _extendSingle_ base [definition] in
  Done r.

Local Close Scope prog_scope.

(** The store before the module runs: [Object.prototype],
    [Function.prototype] and [Array.prototype], with none of their built-in
    members. *)
Definition genesis (warning : value) : state :=
  mkState [mkObj None [] None None;
           mkObj (Some objproto) [] None None;
           mkObj (Some objproto) [] None (Some [])]
          VUndef ∅ [] warning.

Definition unsafeMixin : value := VStr "unsafeMixin".

(** The state in which client code finds the engine, and the base [Class]. *)
Definition boot_outcome : outcome := run 2 module_main (genesis unsafeMixin).

Definition boot : state :=
  match boot_outcome with Ret _ st => st | _ => genesis unsafeMixin end.

Definition Class_ref : value :=
  match boot_outcome with Ret v _ => v | _ => VUndef end.

(** ** Equations of the interpreter *)

Section RunEquations.
Variables (n : nat) (st : state).
Let h := st_heap st.

Lemma run_Done v : run n (Done v) st = Ret v st.
Proof. destruct n; reflexivity. Qed.

Lemma run_Throw v : run n (Throw v) st = Exn (Raised v) st.
Proof. destruct n; reflexivity. Qed.

Lemma run_GetP l key k :
  run n (GetP (VObj l) key k) st = run n (k (get_prop h l key)) st.
Proof. destruct n; reflexivity. Qed.

Lemma run_SetP l key v k h' :
  store h l key v = Some h' ->
  run n (SetP (VObj l) key v k) st = run n k (with_heap st h').
Proof.
  intros Hs. assert (Hl : exists o, h !! l = Some o).
  { unfold store in Hs. destruct (h !! l); [eauto | discriminate]. }
  destruct Hl as [o Hl]. subst h.
  destruct n; simpl; rewrite Hl, Hs; reflexivity.
Qed.

Lemma run_HasP l key k :
  run n (HasP key (VObj l) k) st = run n (k (has_prop h l key)) st.
Proof. destruct n; reflexivity. Qed.

Lemma run_ForIn o keys k :
  for_in_keys h o = Some keys ->
  run n (ForIn o k) st = run n (k keys) st.
Proof. intros Hk. subst h. destruct n; simpl; rewrite Hk; reflexivity. Qed.

Lemma run_IsFun v k : run n (IsFun v k) st = run n (k (is_fun h v)) st.
Proof. destruct n; reflexivity. Qed.

Lemma run_InstOf v p k :
  run n (InstOf v p k) st = run n (k (instance_of h v p)) st.
Proof. destruct n; reflexivity. Qed.

Lemma run_MkObj fields k :
  run n (MkObj fields k) st
  = run n (k (VObj (length h))) (with_heap st (h ++ [literal fields])).
Proof. destruct n; reflexivity. Qed.

Lemma run_MkArr items k :
  run n (MkArr items k) st
  = run n (k (VObj (length h))) (with_heap st (h ++ [array items])).
Proof. destruct n; reflexivity. Qed.

Lemma run_MkFun body k :
  run n (MkFun body k) st
  = run n (k (VObj (S (length h))))
        (with_heap st (h ++ [fresh_prototype (S (length h)); closure body (length h)])).
Proof. destruct n; reflexivity. Qed.

Lemma run_GetExtending k :
  run n (GetExtending k) st = run n (k (st_extending st)) st.
Proof. destruct n; reflexivity. Qed.

Lemma run_SetExtending v k :
  run n (SetExtending v k) st
  = run n k (mkState h v (st_classes st) (st_log st) (st_warning st)).
Proof. destruct n; reflexivity. Qed.

Lemma run_Register name s T k :
  to_key name = Some s ->
  run n (Register name T k) st
  = run n k (mkState h (st_extending st) (<[s := T]> (st_classes st))
                     (st_log st) (st_warning st)).
Proof. intros Hk. destruct n; simpl; rewrite Hk; reflexivity. Qed.

Lemma run_Log k :
  run n (Log k) st
  = run n k (mkState h (st_extending st) (st_classes st)
                     (st_log st ++ [st_warning st]) (st_warning st)).
Proof. destruct n; reflexivity. Qed.

Lemma run_Call f this args k body :
  callee h f = Some body ->
  run (S n) (Call f this args k) st
  = match run n (body this args) st with
    | Ret v st' => run (S n) (k v) st'
    | other => other
    end.
Proof. intros Hc. subst h. simpl. rewrite Hc. reflexivity. Qed.

Lemma run_Call_not_callable f this args k :
  callee h f = None -> run n (Call f this args k) st = Exn TypeError st.
Proof. intros Hc. subst h. destruct n; simpl; rewrite Hc; reflexivity. Qed.

Lemma run_New lf args k body :
  callee h (VObj lf) = Some body ->
  run (S n) (New (VObj lf) args k) st
  = match run n (body (VObj (length h)) args)
              (with_heap st (h ++ [instance h lf])) with
    | Ret (VObj r) st' => run (S n) (k (VObj r)) st'
    | Ret _ st' => run (S n) (k (VObj (length h))) st'
    | other => other
    end.
Proof. intros Hc. subst h. simpl in *. rewrite Hc. reflexivity. Qed.
End RunEquations.

(** More fuel never changes a run that finished. *)
Lemma exec_mono (c1 c2 : prog -> state -> outcome) :
  (forall p st res, c1 p st = res -> res <> OutOfFuel -> c2 p st = res) ->
  forall p st res, exec c1 p st = res -> res <> OutOfFuel -> exec c2 p st = res.
Proof.
  intros Hc p. induction p; intros st res Hr Ho; simpl in *; eauto.
  - destruct o; eauto.
  - destruct o; eauto. destruct (st_heap st !! l); eauto.
    destruct (store _ _ _ _); eauto.
  - destruct o; eauto.
  - destruct (for_in_keys _ _); eauto.
  - destruct (callee _ _); eauto.
    destruct (c1 (f0 this args) st) eqn:Hb;
      try (rewrite (Hc _ _ _ Hb) by discriminate; eauto; fail).
    congruence.
  - destruct f; eauto. destruct (st_heap st !! l) as [o|]; eauto.
    destruct (code o); eauto.
    destruct (c1 _ _) eqn:Hb;
      try (rewrite (Hc _ _ _ Hb) by discriminate; eauto; fail).
    + rewrite (Hc _ _ _ Hb) by discriminate. destruct v; eauto.
    + congruence.
  - destruct (to_key _); eauto.
Qed.

Lemma run_mono n p st res :
  run n p st = res -> res <> OutOfFuel -> forall m, n <= m -> run m p st = res.
Proof.
  revert p st res. induction n as [|n IHn]; intros p st res Hr Ho m Hm.
  - destruct m; simpl in *; [exact Hr|].
    eapply exec_mono; [|exact Hr|exact Ho]. simpl. intros; congruence.
  - destruct m as [|m]; [lia|]. simpl in *.
    eapply exec_mono; [|exact Hr|exact Ho]. simpl.
    intros p' st' res' H1 H2. eapply IHn; eauto. lia.
Qed.

(** ** Facts about the object store *)

Lemma assoc_put_same key v ps :
  assoc key (put key v ps)
  = Some (mkProp v match assoc key ps with Some p => penum p | None => true end).
Proof.
  induction ps as [|[k p] ps IH]; simpl.
  - rewrite String.eqb_refl. reflexivity.
  - destruct (String.eqb k key) eqn:E; simpl; rewrite E; auto.
Qed.

Lemma assoc_put_other key key' v ps :
  key <> key' -> assoc key' (put key v ps) = assoc key' ps.
Proof.
  intros Hne. induction ps as [|[k p] ps IH]; simpl.
  - apply String.eqb_neq in Hne. rewrite Hne. reflexivity.
  - destruct (String.eqb k key) eqn:E; simpl.
    + apply String.eqb_eq in E. subst k.
      apply String.eqb_neq in Hne. rewrite Hne. reflexivity.
    + destruct (String.eqb k key'); auto.
Qed.

Lemma put_put key v1 v2 ps : put key v2 (put key v1 ps) = put key v2 ps.
Proof.
  induction ps as [|[k p] ps IH]; simpl.
  - rewrite String.eqb_refl. reflexivity.
  - destruct (String.eqb k key) eqn:E; simpl; rewrite E; [reflexivity|].
    f_equal. exact IH.
Qed.

Lemma parent_of_lt h l l' : parent_of h l = Some l' -> l' < l.
Proof.
  unfold parent_of. destruct (h !! l) as [o|]; [|discriminate].
  destruct (proto o) as [q|]; [|discriminate].
  destruct (Nat.ltb_spec q l); [|discriminate]. intros [= <-]. assumption.
Qed.

(** The walk from [l] needs no more fuel than [l]. *)
Lemma find_prop_fuel h key n m l :
  l <= n -> l <= m -> find_prop n h l key = find_prop m h l key.
Proof.
  revert m l. induction n as [|n IH]; intros m l Hn Hm; destruct m as [|m]; simpl;
    destruct (h !! l) as [o|]; try reflexivity;
    destruct (own o key); try reflexivity;
    destruct (parent_of h l) as [l'|] eqn:Hp; try reflexivity;
    apply parent_of_lt in Hp; try lia.
  apply IH; lia.
Qed.

Lemma find_prop_unfold h l key :
  find_prop l h l key
  = match h !! l with
    | None => None
    | Some o =>
        match own o key with
        | Some p => Some p
        | None =>
            match parent_of h l with
            | Some l' => find_prop l' h l' key
            | None => None
            end
        end
    end.
Proof.
  destruct l as [|l]; simpl.
  - destruct (h !! 0) as [o|]; [|reflexivity]. destruct (own o key); [reflexivity|].
    destruct (parent_of h 0) as [l'|] eqn:Hp; [|reflexivity].
    apply parent_of_lt in Hp. lia.
  - destruct (h !! S l) as [o|]; [|reflexivity]. destruct (own o key); [reflexivity|].
    destruct (parent_of h (S l)) as [l'|] eqn:Hp; [|reflexivity].
    apply parent_of_lt in Hp. apply find_prop_fuel; lia.
Qed.

Lemma get_prop_unfold h l key :
  get_prop h l key
  = match h !! l with
    | None => VUndef
    | Some o =>
        match own o key with
        | Some p => pval p
        | None =>
            match parent_of h l with
            | Some l' => get_prop h l' key
            | None => VUndef
            end
        end
    end.
Proof.
  unfold get_prop. rewrite find_prop_unfold.
  destruct (h !! l) as [o|]; [|reflexivity]. destruct (own o key); [reflexivity|].
  destruct (parent_of h l); reflexivity.
Qed.

Lemma has_prop_unfold h l key :
  has_prop h l key
  = match h !! l with
    | None => false
    | Some o =>
        match own o key with
        | Some p => true
        | None =>
            match parent_of h l with
            | Some l' => has_prop h l' key
            | None => false
            end
        end
    end.
Proof.
  unfold has_prop. rewrite find_prop_unfold.
  destruct (h !! l) as [o|]; [|reflexivity]. destruct (own o key); [reflexivity|].
  destruct (parent_of h l); reflexivity.
Qed.

(** Two stores that hold the same objects up to [l] look the same from [l]:
    every walk goes down. *)
Definition agree_upto (l : loc) (h h' : heap) : Prop :=
  forall j, j <= l -> h !! j = h' !! j.

Lemma agree_upto_le l j h h' : agree_upto l h h' -> j <= l -> agree_upto j h h'.
Proof. intros H Hj i Hi. apply H. lia. Qed.

Lemma agree_upto_sym l h h' : agree_upto l h h' -> agree_upto l h' h.
Proof. intros H j Hj. symmetry. auto. Qed.

Lemma agree_upto_trans l h1 h2 h3 :
  agree_upto l h1 h2 -> agree_upto l h2 h3 -> agree_upto l h1 h3.
Proof. intros H1 H2 j Hj. rewrite H1, H2; auto. Qed.

Lemma parent_of_agree l h h' : agree_upto l h h' -> parent_of h l = parent_of h' l.
Proof. intros H. unfold parent_of. rewrite (H l); auto. Qed.

Lemma find_prop_agree key h h' n l :
  agree_upto l h h' -> find_prop n h l key = find_prop n h' l key.
Proof.
  revert l. induction n as [|n IH]; intros l H; simpl;
    rewrite <- (H l) by lia; destruct (h !! l) as [o|]; try reflexivity;
    destruct (own o key); try reflexivity.
  rewrite <- (parent_of_agree l h h' H).
  destruct (parent_of h l) as [l'|] eqn:Hp; [|reflexivity].
  apply IH. apply parent_of_lt in Hp. eapply agree_upto_le; eauto. lia.
Qed.

Lemma get_prop_agree key h h' l :
  agree_upto l h h' -> get_prop h l key = get_prop h' l key.
Proof. intros H. unfold get_prop. rewrite (find_prop_agree key h h' l l H). reflexivity. Qed.

Lemma has_prop_agree key h h' l :
  agree_upto l h h' -> has_prop h l key = has_prop h' l key.
Proof. intros H. unfold has_prop. rewrite (find_prop_agree key h h' l l H). reflexivity. Qed.

Lemma on_chain_agree p h h' n l :
  agree_upto l h h' -> on_chain n h l p = on_chain n h' l p.
Proof.
  revert l. induction n as [|n IH]; intros l H; simpl;
    rewrite <- (parent_of_agree l h h' H);
    destruct (parent_of h l) as [l'|] eqn:Hp; try reflexivity.
  f_equal. apply IH. apply parent_of_lt in Hp. eapply agree_upto_le; eauto. lia.
Qed.

Lemma enum_chain_agree h h' n l seen :
  agree_upto l h h' -> enum_chain n h l seen = enum_chain n h' l seen.
Proof.
  revert l seen. induction n as [|n IH]; intros l seen H; simpl;
    rewrite <- (H l) by lia; destruct (h !! l) as [o|]; try reflexivity;
    destruct (visit (own_props o) seen) as [out seen']; try reflexivity.
  rewrite <- (parent_of_agree l h h' H).
  destruct (parent_of h l) as [l'|] eqn:Hp; [|reflexivity].
  f_equal. apply IH. apply parent_of_lt in Hp. eapply agree_upto_le; eauto. lia.
Qed.

Lemma agree_upto_app l h ext : l < length h -> agree_upto l h (h ++ ext).
Proof. intros Hl j Hj. symmetry. apply lookup_app_l. lia. Qed.

Lemma store_insert h l key v h' :
  store h l key v = Some h' ->
  exists o, h !! l = Some o /\ elems o = None
            /\ h' = <[l := mkObj (proto o) (put key v (props o)) (code o) None]> h.
Proof.
  unfold store. destruct (h !! l) as [o|]; [|discriminate].
  destruct (elems o) eqn:E; [discriminate|]. intros [= <-]. eauto.
Qed.

Lemma store_length h l key v h' : store h l key v = Some h' -> length h' = length h.
Proof. intros (o & _ & _ & ->)%store_insert. apply length_insert. Qed.

Lemma store_lookup_other h l key v h' j :
  store h l key v = Some h' -> j <> l -> h' !! j = h !! j.
Proof. intros (o & _ & _ & ->)%store_insert Hj. apply list_lookup_insert_ne. auto. Qed.

Lemma store_lookup_same h l key v h' :
  store h l key v = Some h' ->
  exists o, h !! l = Some o /\ elems o = None
            /\ h' !! l = Some (mkObj (proto o) (put key v (props o)) (code o) None).
Proof.
  intros (o & Hl & He & ->)%store_insert. exists o. repeat split; auto.
  apply list_lookup_insert_eq. eapply lookup_lt_Some; eauto.
Qed.

Lemma store_agree h l key v h' j :
  store h l key v = Some h' -> j < l -> agree_upto j h h'.
Proof. intros Hs Hj i Hi. symmetry. eapply store_lookup_other; eauto. lia. Qed.

Lemma store_defined h l key v o :
  h !! l = Some o -> elems o = None -> is_Some (store h l key v).
Proof. intros Hl He. unfold store. rewrite Hl, He. eauto. Qed.

Lemma store_parent_of h l key v h' j :
  store h l key v = Some h' -> parent_of h' j = parent_of h j.
Proof.
  intros Hs. unfold parent_of. destruct (decide (j = l)) as [->|Hj].
  - destruct (store_lookup_same _ _ _ _ _ Hs) as (o & -> & _ & ->). reflexivity.
  - rewrite (store_lookup_other _ _ _ _ _ _ Hs Hj). reflexivity.
Qed.

Lemma store_callee h l key v h' f :
  store h l key v = Some h' -> callee h' f = callee h f.
Proof.
  intros Hs. destruct f as [| | | | |j]; try reflexivity. simpl.
  destruct (decide (j = l)) as [->|Hj].
  - destruct (store_lookup_same _ _ _ _ _ Hs) as (o & -> & _ & ->). reflexivity.
  - rewrite (store_lookup_other _ _ _ _ _ _ Hs Hj). reflexivity.
Qed.

Lemma store_is_fun h l key v h' f :
  store h l key v = Some h' -> is_fun h' f = is_fun h f.
Proof. intros Hs. unfold is_fun. rewrite (store_callee _ _ _ _ _ _ Hs). reflexivity. Qed.

Lemma own_put_same o key v :
  elems o = None ->
  own (mkObj (proto o) (put key v (props o)) (code o) None) key
  = Some (mkProp v match own o key with Some p => penum p | None => true end).
Proof. intros He. unfold own, own_props. simpl. rewrite He. apply assoc_put_same. Qed.

Lemma own_put_other o key key' v :
  elems o = None -> key <> key' ->
  own (mkObj (proto o) (put key v (props o)) (code o) None) key' = own o key'.
Proof. intros He Hne. unfold own, own_props. simpl. rewrite He. apply assoc_put_other; auto. Qed.

(** An assignment to [key] is invisible to reads of any other key. *)
Lemma store_find_prop_other h l key v h' key' n j :
  store h l key v = Some h' -> key <> key' ->
  find_prop n h' j key' = find_prop n h j key'.
Proof.
  intros Hs Hne. revert j. induction n as [|n IH]; intros j; simpl;
    (destruct (decide (j = l)) as [->|Hj];
     [ destruct (store_lookup_same _ _ _ _ _ Hs) as (o & Ho & He & Ho');
       rewrite Ho, Ho', (own_put_other o key key' v He Hne)
     | rewrite (store_lookup_other _ _ _ _ _ _ Hs Hj) ]);
    rewrite ?(store_parent_of _ _ _ _ _ _ Hs); try reflexivity.
  - destruct (own o key'); [reflexivity|]. destruct (parent_of h l); auto.
  - destruct (h !! j) as [o|]; [|reflexivity]. destruct (own o key'); [reflexivity|].
    destruct (parent_of h j); auto.
Qed.

Lemma store_get_prop_other h l key v h' key' j :
  store h l key v = Some h' -> key <> key' -> get_prop h' j key' = get_prop h j key'.
Proof.
  intros Hs Hne. unfold get_prop.
  rewrite (store_find_prop_other _ _ _ _ _ _ j j Hs Hne). reflexivity.
Qed.

Lemma store_has_prop_other h l key v h' key' j :
  store h l key v = Some h' -> key <> key' -> has_prop h' j key' = has_prop h j key'.
Proof.
  intros Hs Hne. unfold has_prop.
  rewrite (store_find_prop_other _ _ _ _ _ _ j j Hs Hne). reflexivity.
Qed.

Lemma store_get_prop_same h l key v h' :
  store h l key v = Some h' -> get_prop h' l key = v.
Proof.
  intros Hs. rewrite get_prop_unfold.
  destruct (store_lookup_same _ _ _ _ _ Hs) as (o & _ & He & ->).
  rewrite (own_put_same o key v He). reflexivity.
Qed.

Create Rewrite HintDb run.
#[global] Hint Rewrite run_Done run_Throw run_GetP run_HasP run_IsFun run_InstOf
  run_MkObj run_MkArr run_MkFun run_GetExtending run_SetExtending run_Log : run.

Ltac run_step := autorewrite with run; simpl st_heap; simpl st_extending.
Ltac st_simpl :=
  unfold with_heap; cbn [st_heap st_extending st_classes st_log st_warning].
Ltac run_store H := erewrite run_SetP by exact H; simpl st_heap.

(** ** [serialize] *)

(** C8: on every instance, [serialize()] returns a fresh plain object whose
    own properties are exactly [id], [clientID] and [className], in that
    order, holding what the instance shows under those names when the call
    is made; nothing else in the store changes. *)
Theorem serialize_snapshot n st l args :
  let h := st_heap st in
  let record :=
    mkObj (Some objproto)
          [("id", mkProp (get_prop h l "id") true);
           ("clientID", mkProp (get_prop h l "clientID") true);
           ("className", mkProp (get_prop h l "className") true)]
          None None in
  run n (serialize (VObj l) args) st = Ret (VObj (length h)) (with_heap st (h ++ [record]))
  /\ (h ++ [record]) !! length h = Some record
  /\ map fst (own_props record) = ["id"; "clientID"; "className"].
Proof.
  intros h record. split; [|split].
  - unfold serialize. run_step. reflexivity.
  - rewrite lookup_app_r by lia. rewrite Nat.sub_diag. reflexivity.
  - reflexivity.
Qed.

(** ** [createParent] *)

(** [o.name(args)]. *)
Definition method_call (o : value) (name : string) (args : list value)
    (k : value -> prog) : prog :=
  GetP o name (fun f => Call f o args k).


(** A [Base] whose [speak] returns ['base'], a [Child] whose [speak] throws
    ['boom'], and an instance of [Child]. *)
Definition throwing_child : prog :=
  MkFun (fun _ _ => Done (VStr "base")) (fun speak0 =>
  MkObj [("speak", speak0)] (fun d0 =>
  method_call Class_ref "extend" [d0] (fun Base =>
  MkFun (fun _ _ => Throw (VStr "boom")) (fun speak1 =>
  MkObj [("speak", speak1)] (fun d1 =>
  method_call Base "extend" [d1] (fun Child =>
  New Child [] (fun o => Done o))))))).

Definition throwing_child_state : state :=
  match run 4 throwing_child boot with Ret _ st => st | _ => boot end.


(** ** [_bindGame] *)

Lemma is_null_false v : v <> VNull -> is_null v = false.
Proof. destruct v; simpl; congruence. Qed.

Lemma store_again h l key v h' key' v' :
  store h l key v = Some h' -> is_Some (store h' l key' v').
Proof.
  intros Hs. destruct (store_lookup_same _ _ _ _ _ Hs) as (o & _ & _ & Hl).
  eapply store_defined; [exact Hl | reflexivity].
Qed.

(** C6: [_bindGame(game)] on an object [this], field by field.  The call
    first stores [this.game = game] (store [h1]).  A field counts as unset
    exactly when it is [null].

    - Both [id] and [clientID] set: whatever [game] is, nothing but [game]
      is assigned.
    - [id] set, [clientID] unset, [game] an object: [clientID] is adopted
      from [game], [id] stays.
    - [id] unset, [game] an object whose [_getObjectID] returns [fresh]:
      [id] becomes [fresh]; then [clientID] is adopted from [game] only if
      it is still unset.
    - [game] falsy: nothing but [game] is assigned. *)
Theorem bindGame_idempotent n st l game h1 :
  let h := st_heap st in
  let call := run n (_bindGame (VObj l) [game]) st in
  store h l "game" game = Some h1 ->
  (get_prop h l "id" <> VNull -> get_prop h l "clientID" <> VNull ->
     call = Ret VUndef (with_heap st h1)
     /\ get_prop h1 l "id" = get_prop h l "id"
     /\ get_prop h1 l "clientID" = get_prop h l "clientID")
  /\ (get_prop h l "id" <> VNull -> get_prop h l "clientID" = VNull ->
      forall lg, game = VObj lg ->
      exists h2, call = Ret VUndef (with_heap st h2)
                 /\ get_prop h2 l "id" = get_prop h l "id"
                 /\ get_prop h2 l "clientID" = get_prop h1 lg "clientID")
  /\ (get_prop h l "id" = VNull ->
      forall lg body fresh st2 h3, game = VObj lg ->
      callee h1 (get_prop h1 lg "_getObjectID") = Some body ->
      run n (body game []) (with_heap st h1) = Ret fresh st2 ->
      store (st_heap st2) l "id" fresh = Some h3 ->
      exists st', run (S n) (_bindGame (VObj l) [game]) st = Ret VUndef st'
                  /\ get_prop (st_heap st') l "id" = fresh
                  /\ get_prop (st_heap st') l "clientID"
                     = if is_null (get_prop (st_heap st2) l "clientID")
                       then get_prop (st_heap st2) lg "clientID"
                       else get_prop (st_heap st2) l "clientID")
  /\ (truthy game = false -> call = Ret VUndef (with_heap st h1)).
Proof.
  intros h call Hs. subst call. unfold _bindGame. cbn [arg nth].
  erewrite run_SetP by exact Hs.
  assert (Hid : get_prop h1 l "id" = get_prop h l "id")
    by (apply (store_get_prop_other _ _ _ _ _ _ _ Hs); discriminate).
  assert (Hcl : get_prop h1 l "clientID" = get_prop h l "clientID")
    by (apply (store_get_prop_other _ _ _ _ _ _ _ Hs); discriminate).
  split; [|split; [|split]].
  - intros Hi Hc. split; [|auto].
    destruct (truthy game); [|apply run_Done].
    rewrite run_GetP. simpl st_heap. rewrite Hid, (is_null_false _ Hi).
    rewrite run_GetP. simpl st_heap. rewrite Hcl, (is_null_false _ Hc).
    apply run_Done.
  - intros Hi Hc lg ->. simpl truthy. cbv iota.
    destruct (store_again _ _ _ _ _ "clientID" (get_prop h1 lg "clientID") Hs)
      as [h2 Hs2].
    exists h2. repeat split.
    + rewrite run_GetP. simpl st_heap. rewrite Hid, (is_null_false _ Hi).
      rewrite run_GetP. simpl st_heap. rewrite Hcl, Hc. simpl is_null. cbv iota.
      rewrite run_GetP. simpl st_heap. erewrite run_SetP by exact Hs2.
      apply run_Done.
    + rewrite <- Hid. apply (store_get_prop_other _ _ _ _ _ _ _ Hs2). discriminate.
    + apply (store_get_prop_same _ _ _ _ _ Hs2).
  - intros Hi lg body fresh st2 h3 -> Hbody Hrun Hs3.
    set (c2 := get_prop (st_heap st2) l "clientID").
    assert (Hc3 : get_prop h3 l "clientID" = c2)
      by (apply (store_get_prop_other _ _ _ _ _ _ _ Hs3); discriminate).
    erewrite run_SetP by exact Hs. simpl truthy. cbv iota.
    rewrite run_GetP. simpl st_heap. rewrite Hid, Hi. simpl is_null. cbv iota.
    rewrite run_GetP. simpl st_heap.
    rewrite (run_Call n (with_heap st h1) _ (VObj lg) [] _ body Hbody).
    rewrite Hrun. erewrite run_SetP by exact Hs3.
    rewrite run_GetP. simpl st_heap. rewrite Hc3.
    destruct (is_null c2) eqn:Hnull.
    + destruct (store_again _ _ _ _ _ "clientID" (get_prop h3 lg "clientID") Hs3)
        as [h4 Hs4].
      rewrite run_GetP. simpl st_heap. erewrite run_SetP by exact Hs4.
      rewrite run_Done. eexists. split; [reflexivity|]. simpl st_heap. split.
      * rewrite (store_get_prop_other _ _ _ _ _ _ _ Hs4) by discriminate.
        apply (store_get_prop_same _ _ _ _ _ Hs3).
      * rewrite (store_get_prop_same _ _ _ _ _ Hs4).
        apply (store_get_prop_other _ _ _ _ _ _ _ Hs3). discriminate.
    + rewrite run_Done. eexists. split; [reflexivity|]. simpl st_heap. split.
      * apply (store_get_prop_same _ _ _ _ _ Hs3).
      * exact Hc3.
  - intros ->. apply run_Done.
Qed.

(** An instance of [Class] and two game contexts, [{clientID: 'c1'}] handing
    out the id 7 and [{clientID: 'c2'}] handing out the id 8. *)
Definition two_games : prog :=
  New Class_ref [] (fun o =>
  MkFun (fun _ _ => Done (VNum 7)) (fun alloc1 =>
  MkObj [("clientID", VStr "c1"); ("_getObjectID", alloc1)] (fun game1 =>
  MkFun (fun _ _ => Done (VNum 8)) (fun alloc2 =>
  MkObj [("clientID", VStr "c2"); ("_getObjectID", alloc2)] (fun game2 =>
  Done o))))).

Definition two_games_state : state :=
  match run 3 two_games boot with Ret _ st => st | _ => boot end.

Definition bound_once : state :=
  match run 1 (_bindGame (VObj 23) [VObj 26]) two_games_state with
  | Ret _ st => st
  | _ => boot
  end.

Lemma bindGame_idempotent_witness :
  get_prop (st_heap two_games_state) 23 "id" = VNull
  /\ get_prop (st_heap bound_once) 23 "id" = VNum 7
  /\ get_prop (st_heap bound_once) 23 "clientID" = VStr "c1"
  /\ exists h1,
       run 1 (_bindGame (VObj 23) [VObj 29]) bound_once
       = Ret VUndef (with_heap bound_once h1)
       /\ get_prop h1 23 "game" = VObj 29
       /\ get_prop h1 23 "id" = VNum 7
       /\ get_prop h1 23 "clientID" = VStr "c1".
Proof.
  repeat (split; [vm_compute; reflexivity|]).
  eexists.
  destruct (bindGame_idempotent 1 bound_once 23 (VObj 29) _ ltac:(vm_compute; reflexivity))
    as (HA & _).
  destruct HA as (Hcall & Hid & Hcl); [vm_compute; discriminate ..|].
  split; [exact Hcall|]. split; [vm_compute; reflexivity|].
  split; [rewrite Hid | rewrite Hcl]; vm_compute; reflexivity.
Defined.

(** ** [for-in] visits every key once *)

Lemma visit_spec ps : forall seen out seen',
  visit ps seen = (out, seen') ->
  NoDup out
  /\ (forall k, k ∈ out -> (k ∉ seen) /\ (k ∈ seen'))
  /\ (forall k, k ∈ seen -> k ∈ seen').
Proof.
  induction ps as [|[k p] ps IH]; intros seen out seen' Hv; simpl in Hv.
  - injection Hv as <- <-. split; [constructor|]. split; [|auto].
    intros k Hk. inversion Hk.
  - case_bool_decide as Hin.
    + apply IH. exact Hv.
    + destruct (visit ps (k :: seen)) as [out0 seen0] eqn:Hv0.
      destruct (IH _ _ _ Hv0) as (Hnd & Hout & Hseen).
      injection Hv as <- <-.
      assert (Hk : k ∉ out0).
      { intros Hk. apply Hout in Hk as [Hk _]. apply Hk. left. }
      split; [|split].
      * destruct (penum p); [constructor|]; auto.
      * intros k' Hk'.
        assert (Hcase : k' = k \/ k' ∈ out0).
        { destruct (penum p); [|auto]. apply elem_of_cons in Hk'. exact Hk'. }
        destruct Hcase as [->|Hk0].
        -- split; [exact Hin|]. apply Hseen. left.
        -- apply Hout in Hk0 as [Hk1 Hk2]. split; [|exact Hk2].
           intros Hs. apply Hk1. right. exact Hs.
      * intros k' Hk'. apply Hseen. right. exact Hk'.
Qed.

Lemma enum_chain_spec h n : forall l seen,
  NoDup (enum_chain n h l seen)
  /\ forall k, k ∈ enum_chain n h l seen -> k ∉ seen.
Proof.
  induction n as [|n IH]; intros l seen; simpl;
    (destruct (h !! l) as [o|];
     [|split; [constructor | intros k Hk; inversion Hk]]);
    destruct (visit (own_props o) seen) as [out seen'] eqn:Hv;
    destruct (visit_spec _ _ _ _ Hv) as (Hnd & Hout & Hseen).
  - rewrite app_nil_r. split; [exact Hnd|]. intros k Hk. apply Hout. exact Hk.
  - destruct (parent_of h l) as [l'|].
    + destruct (IH l' seen') as [Hnd' Hout']. split.
      * apply NoDup_app. split; [exact Hnd|]. split; [|exact Hnd'].
        intros k Hk Hk'. apply Hout' in Hk'. apply Hk'. apply Hout. exact Hk.
      * intros k [Hk|Hk]%elem_of_app; [by apply Hout|].
        intros Hs. apply (Hout' k Hk). apply Hseen. exact Hs.
    + rewrite app_nil_r. split; [exact Hnd|]. intros k Hk. apply Hout. exact Hk.
Qed.

Lemma for_in_keys_NoDup h v keys : for_in_keys h v = Some keys -> NoDup keys.
Proof.
  destruct v; simpl; intros [= <-]; try constructor.
  apply enum_chain_spec.
Qed.

(** ** [mixin] *)

(** A plain object: present in the store and not an array. *)
Definition plain (h : heap) (l : loc) : Prop :=
  exists o, h !! l = Some o /\ elems o = None.

Lemma plain_store h l key v : plain h l -> is_Some (store h l key v).
Proof. intros (o & Hl & He). eapply store_defined; eauto. Qed.

Lemma store_plain h l key v h' j : store h l key v = Some h' -> plain h j -> plain h' j.
Proof.
  intros Hs (o & Hl & He). destruct (decide (j = l)) as [->|Hj].
  - destruct (store_lookup_same _ _ _ _ _ Hs) as (o' & _ & _ & Hl'). eexists. eauto.
  - exists o. rewrite (store_lookup_other _ _ _ _ _ _ Hs Hj). auto.
Qed.

(** Does [mixin] pass over [key]?  The guard of the source, negated. *)
Definition skipped (h : heap) (l lp : loc) (safe : value) (key : string) : bool :=
  is_fun h (get_prop h lp key) && has_prop h l key && truthy safe.

(** One turn of the loop of [mixin], as a function on states. *)
Definition mixin_effect (l lp : loc) (safe : value) (cur : state) (key : string) : state :=
  let h := st_heap cur in
  if skipped h l lp safe key then
    mkState h (st_extending cur) (st_classes cur)
            (st_log cur ++ [st_warning cur]) (st_warning cur)
  else
    match store h l key (get_prop h lp key) with
    | Some h' => with_heap cur h'
    | None => cur
    end.

Lemma mixin_effect_plain l lp safe cur key :
  plain (st_heap cur) l -> plain (st_heap (mixin_effect l lp safe cur key)) l.
Proof.
  intros Hp. unfold mixin_effect. destruct (skipped _ _ _ _ _); [exact Hp|].
  destruct (store _ _ _ _) eqn:Hs; [|exact Hp]. simpl. eapply store_plain; eauto.
Qed.

Lemma mixin_step_run n l lp safe key k cur :
  plain (st_heap cur) l ->
  run n (mixin_step (VObj l) (VObj lp) safe key k) cur
  = run n k (mixin_effect l lp safe cur key).
Proof.
  intros Hp. unfold mixin_step, mixin_effect, skipped.
  destruct (plain_store _ _ key (get_prop (st_heap cur) lp key) Hp) as [h' Hs].
  rewrite Hs. rewrite run_GetP, run_IsFun.
  destruct (is_fun _ _); simpl.
  - rewrite run_HasP. destruct (has_prop _ _ _); simpl.
    + destruct (truthy safe); simpl.
      * apply run_Log.
      * rewrite run_GetP. run_store Hs. reflexivity.
    + rewrite run_GetP. run_store Hs. reflexivity.
  - rewrite run_GetP. run_store Hs. reflexivity.
Qed.

Lemma mixin_loop_run n l lp safe keys : forall cur,
  plain (st_heap cur) l ->
  run n (for_each keys (mixin_step (VObj l) (VObj lp) safe) (Done (VObj l))) cur
  = Ret (VObj l) (fold_left (mixin_effect l lp safe) keys cur).
Proof.
  induction keys as [|key keys IH]; intros cur Hp; simpl.
  - apply run_Done.
  - rewrite mixin_step_run by exact Hp. apply IH. apply mixin_effect_plain. exact Hp.
Qed.

(** [own_writes l keys cur fin]: the state [fin] differs from [cur] at most
    in the own properties [keys] of the plain object [l], and in the log. *)
Record own_writes (l : loc) (keys : list string) (cur fin : state) : Prop := {
  ow_plain : plain (st_heap fin) l;
  ow_other : forall j, j <> l -> st_heap fin !! j = st_heap cur !! j;
  ow_keys : forall key j m, key ∉ keys ->
            find_prop m (st_heap fin) j key = find_prop m (st_heap cur) j key;
  ow_code : forall v, is_fun (st_heap fin) v = is_fun (st_heap cur) v;
  ow_extending : st_extending fin = st_extending cur;
  ow_classes : st_classes fin = st_classes cur;
  ow_warning : st_warning fin = st_warning cur
}.

Lemma own_writes_refl l cur : plain (st_heap cur) l -> own_writes l [] cur cur.
Proof. intros Hp. split; auto. Qed.

Lemma mixin_effect_frame l lp safe cur key :
  plain (st_heap cur) l -> own_writes l [key] cur (mixin_effect l lp safe cur key).
Proof.
  intros Hp. pose proof (mixin_effect_plain l lp safe cur key Hp) as Hp'.
  unfold mixin_effect in *. destruct (skipped _ _ _ _ _).
  - split; auto.
  - destruct (plain_store _ _ key (get_prop (st_heap cur) lp key) Hp) as [h' Hs].
    rewrite Hs in *. split; simpl; auto.
    + intros j Hj. eapply store_lookup_other; eauto.
    + intros key' j m Hk. eapply store_find_prop_other; eauto.
      intros ->. apply Hk. left.
    + intros v. eapply store_is_fun; eauto.
Qed.

Lemma own_writes_trans l ks1 ks2 a b c :
  own_writes l ks1 a b -> own_writes l ks2 b c -> own_writes l (ks1 ++ ks2) a c.
Proof.
  intros [] []. split; try congruence.
  - intros j Hj. rewrite ow_other1, ow_other0; auto.
  - intros key j m Hk. rewrite ow_keys1, ow_keys0; auto.
    all: intros Hin; apply Hk; apply elem_of_app; auto.
Qed.

Lemma mixin_fold_frame l lp safe keys : forall cur,
  plain (st_heap cur) l ->
  own_writes l keys cur (fold_left (mixin_effect l lp safe) keys cur).
Proof.
  induction keys as [|key keys IH]; intros cur Hp; simpl.
  - apply own_writes_refl. exact Hp.
  - apply (own_writes_trans l [key] keys _ (mixin_effect l lp safe cur key)).
    + apply mixin_effect_frame. exact Hp.
    + apply IH. apply mixin_effect_plain. exact Hp.
Qed.

Lemma own_writes_skipped l lp keys cur fin safe key :
  own_writes l keys cur fin -> key ∉ keys ->
  skipped (st_heap fin) l lp safe key = skipped (st_heap cur) l lp safe key.
Proof.
  intros [] Hk. unfold skipped, get_prop, has_prop.
  rewrite !(ow_keys0 key) by exact Hk. rewrite ow_code0. reflexivity.
Qed.

(** What the loop leaves behind, key by key, in terms of the state it
    started from. *)
Lemma mixin_fold_spec l lp safe keys : forall cur,
  NoDup keys -> plain (st_heap cur) l ->
  let h := st_heap cur in
  let fin := fold_left (mixin_effect l lp safe) keys cur in
  (forall key, key ∈ keys ->
     if skipped h l lp safe key
     then find_prop l (st_heap fin) l key = find_prop l h l key
     else get_prop (st_heap fin) l key = get_prop h lp key
          /\ exists o, st_heap fin !! l = Some o /\ is_Some (own o key))
  /\ st_log fin
     = st_log cur
       ++ repeat (st_warning cur) (length (List.filter (skipped h l lp safe) keys)).
Proof.
  induction keys as [|key keys IH]; intros cur Hnd Hp h fin.
  - split; [intros key Hk; inversion Hk|]. simpl. rewrite app_nil_r. reflexivity.
  - apply NoDup_cons in Hnd as [Hkey Hnd]. subst h fin. simpl fold_left.
    pose proof (mixin_effect_frame l lp safe cur key Hp) as F1.
    pose proof (mixin_effect_plain l lp safe cur key Hp) as Hp1.
    assert (Hcur1 : st_heap (mixin_effect l lp safe cur key)
                    = if skipped (st_heap cur) l lp safe key then st_heap cur
                      else match store (st_heap cur) l key (get_prop (st_heap cur) lp key) with
                           | Some h' => h'
                           | None => st_heap cur
                           end).
    { unfold mixin_effect. destruct (skipped _ _ _ _ _); [reflexivity|].
      destruct (store _ _ _ _); reflexivity. }
    assert (Hlog1 : st_log (mixin_effect l lp safe cur key)
                    = st_log cur ++ if skipped (st_heap cur) l lp safe key
                                    then [st_warning cur] else []).
    { unfold mixin_effect. destruct (skipped _ _ _ _ _); [reflexivity|].
      rewrite app_nil_r. destruct (store _ _ _ _); reflexivity. }
    set (cur1 := mixin_effect l lp safe cur key) in *.
    pose proof (mixin_fold_frame l lp safe keys cur1 Hp1) as F2.
    destruct (IH cur1 Hnd Hp1) as [IHk IHlog].
    assert (Hsame : forall k, k ∈ keys ->
              skipped (st_heap cur1) l lp safe k = skipped (st_heap cur) l lp safe k).
    { intros k Hk. apply (own_writes_skipped l lp [key] cur cur1); [exact F1|].
      intros ->%list_elem_of_singleton. contradiction. }
    split.
    + intros k [->|Hk]%elem_of_cons.
      * destruct (skipped (st_heap cur) l lp safe key) eqn:Hsk.
        -- rewrite (ow_keys _ _ _ _ F2 key l l Hkey), Hcur1. reflexivity.
        -- destruct (plain_store _ _ key (get_prop (st_heap cur) lp key) Hp) as [h' Hs].
           rewrite Hs in Hcur1. split.
           ++ unfold get_prop. rewrite (ow_keys _ _ _ _ F2 key l l Hkey), Hcur1.
              apply (store_get_prop_same _ _ _ _ _ Hs).
           ++ destruct (store_lookup_same _ _ _ _ _ Hs) as (o & _ & He & Ho').
              pose proof (ow_keys _ _ _ _ F2 key l 0 Hkey) as H0.
              simpl in H0. rewrite Hcur1, Ho', (own_put_same o key _ He) in H0.
              destruct (st_heap (fold_left _ keys cur1) !! l) as [o1|]; [|discriminate].
              exists o1. split; [reflexivity|].
              destruct (own o1 key); [eauto|discriminate].
      * specialize (IHk k Hk). rewrite (Hsame k Hk) in IHk.
        assert (Hne : k ∉ [key]).
        { intros ->%list_elem_of_singleton. contradiction. }
        destruct (skipped (st_heap cur) l lp safe k).
        -- rewrite IHk. apply (ow_keys _ _ _ _ F1). exact Hne.
        -- destruct IHk as [Hv Ho]. split; [|exact Ho]. rewrite Hv.
           unfold get_prop. rewrite (ow_keys _ _ _ _ F1 k lp lp Hne). reflexivity.
    + rewrite IHlog.
      rewrite (List.filter_ext_in (skipped (st_heap cur1) l lp safe)
                 (skipped (st_heap cur) l lp safe) keys).
      2:{ intros k Hk. apply Hsame. apply list_elem_of_In. exact Hk. }
      rewrite (ow_warning _ _ _ _ F1), Hlog1. simpl.
      destruct (skipped (st_heap cur) l lp safe key); simpl.
      * rewrite <- app_assoc. reflexivity.
      * rewrite app_nil_r. reflexivity.
Qed.


(** An instance of [Class], [{init: 5}], and [{id: function() {}}]. *)
Definition mixin_inputs : prog :=
  New Class_ref [] (fun o =>
  MkObj [("init", VNum 5)] (fun p1 =>
  MkFun (fun _ _ => Done VUndef) (fun f =>
  MkObj [("id", f)] (fun p2 =>
  Done o)))).

Definition mixin_inputs_state : state :=
  match run 3 mixin_inputs boot with Ret _ st => st | _ => boot end.



(** ** The loop of [_extendSingle] *)

Definition store_or (h : heap) (l : loc) (key : string) (v : value) : heap :=
  match store h l key v with Some h' => h' | None => h end.

(** One turn of the loop, as a function on stores: [P'] is the prototype
    under construction and [c] the child definition. *)
Definition assign_heap (P' c : loc) (cur : heap) (key : string) : heap :=
  let child_value := get_prop cur c key in
  let old_value := get_prop cur P' key in
  if is_fun cur child_value && is_fun cur old_value then
    store_or (cur ++ [fresh_prototype (S (length cur));
                      closure (createParent child_value old_value) (length cur)])
             P' key (VObj (S (length cur)))
  else store_or cur P' key child_value.

Lemma plain_app h ext l : plain h l -> plain (h ++ ext) l.
Proof.
  intros (o & Hl & He). exists o. split; [|exact He].
  rewrite lookup_app_l; [exact Hl|]. eapply lookup_lt_Some; eauto.
Qed.

Lemma plain_lt h l : plain h l -> l < length h.
Proof. intros (o & Hl & _). eapply lookup_lt_Some; eauto. Qed.

Lemma store_or_spec h l key v :
  plain h l -> store h l key v = Some (store_or h l key v).
Proof.
  intros Hp. unfold store_or. destruct (plain_store h l key v Hp) as [h' ->]. reflexivity.
Qed.

Lemma assign_property_run n st cur T' P' c key k :
  get_prop cur T' "prototype" = VObj P' ->
  plain cur P' ->
  run n (assign_property (VObj T') (VObj c) key k) (with_heap st cur)
  = run n k (with_heap st (assign_heap P' c cur key)).
Proof.
  intros HT Hp. unfold assign_property, assign_heap.
  rewrite run_GetP, run_IsFun. simpl st_heap.
  destruct (is_fun cur (get_prop cur c key)); simpl.
  - rewrite run_GetP. simpl st_heap. rewrite HT. rewrite run_GetP, run_IsFun. simpl st_heap.
    destruct (is_fun cur (get_prop cur P' key)); simpl.
    + rewrite !run_GetP. simpl st_heap. rewrite HT. rewrite !run_GetP. simpl st_heap.
      rewrite run_MkFun. simpl st_heap.
      erewrite run_SetP by (simpl st_heap; apply store_or_spec, plain_app, Hp).
      reflexivity.
    + rewrite !run_GetP. simpl st_heap. rewrite HT.
      erewrite run_SetP by (simpl st_heap; apply store_or_spec, Hp). reflexivity.
  - rewrite !run_GetP. simpl st_heap. rewrite HT.
    erewrite run_SetP by (simpl st_heap; apply store_or_spec, Hp). reflexivity.
Qed.

(** What a turn of the loop does to the store: it may allocate a wrapper,
    and it assigns one own property of [P']. *)
Record assigned (P' : loc) (key : string) (cur cur' : heap) : Prop := {
  as_length : length cur <= length cur';
  as_other : forall j, j < length cur -> j <> P' -> cur' !! j = cur !! j;
  as_target : exists o v,
      cur !! P' = Some o /\ elems o = None
      /\ cur' !! P' = Some (mkObj (proto o) (put key v (props o)) (code o) None)
      /\ v = get_prop cur' P' key
}.

Lemma store_or_assigned h l key v :
  plain h l -> assigned l key h (store_or h l key v).
Proof.
  intros Hp. pose proof (store_or_spec h l key v Hp) as Hs.
  split.
  - rewrite (store_length _ _ _ _ _ Hs). lia.
  - intros j _ Hj. apply (store_lookup_other _ _ _ _ _ _ Hs Hj).
  - destruct (store_lookup_same _ _ _ _ _ Hs) as (o & Ho & He & Ho').
    exists o, v. repeat split; auto. symmetry. apply (store_get_prop_same _ _ _ _ _ Hs).
Qed.

Lemma assign_heap_assigned P' c cur key :
  plain cur P' -> assigned P' key cur (assign_heap P' c cur key).
Proof.
  intros Hp. unfold assign_heap.
  destruct (is_fun cur (get_prop cur c key) && is_fun cur (get_prop cur P' key)).
  - set (ext := [_; _]).
    destruct (store_or_assigned (cur ++ ext) P' key (VObj (S (length cur)))
                (plain_app _ ext _ Hp)) as [Hlen Hother (o & v & Ho & He & Ho' & Hv)].
    pose proof (plain_lt _ _ Hp) as Hlt.
    split.
    + rewrite length_app in Hlen. lia.
    + intros j Hj Hne. rewrite Hother; [|rewrite length_app; lia|exact Hne].
      apply lookup_app_l. exact Hj.
    + exists o, v. rewrite lookup_app_l in Ho by exact Hlt. auto.
  - apply store_or_assigned. exact Hp.
Qed.

Lemma assigned_plain P' key cur cur' : assigned P' key cur cur' -> plain cur' P'.
Proof. intros [_ _ (o & v & _ & _ & Ho' & _)]. eexists. split; [exact Ho'|reflexivity]. Qed.

Lemma assigned_agree P' key cur cur' j :
  assigned P' key cur cur' -> j < P' -> P' < length cur -> agree_upto j cur cur'.
Proof. intros [_ Hother _] Hj HP i Hi. symmetry. apply Hother; lia. Qed.

Lemma extension_loop_run n st T' P' c keys k : forall cur,
  T' < P' ->
  get_prop cur T' "prototype" = VObj P' ->
  plain cur P' ->
  run n (for_each keys (assign_property (VObj T') (VObj c)) k) (with_heap st cur)
  = run n k (with_heap st (fold_left (assign_heap P' c) keys cur)).
Proof.
  induction keys as [|key keys IH]; intros cur Hlt HT Hp; simpl; [reflexivity|].
  rewrite (assign_property_run n st cur T' P' c key _ HT Hp).
  pose proof (assign_heap_assigned P' c cur key Hp) as Ha.
  apply IH; [exact Hlt| |eapply assigned_plain; eauto].
  rewrite <- HT. symmetry. apply get_prop_agree.
  eapply assigned_agree; eauto. apply plain_lt. exact Hp.
Qed.

Lemma is_fun_primitive h v : (forall d, v <> VObj d) -> is_fun h v = false.
Proof. intros Hv. destruct v; try reflexivity. exfalso. eapply Hv. reflexivity. Qed.

Lemma assign_heap_primitive P' c cur key :
  (forall d, get_prop cur c key <> VObj d) ->
  assign_heap P' c cur key = store_or cur P' key (get_prop cur c key).
Proof. intros Hv. unfold assign_heap. rewrite (is_fun_primitive _ _ Hv). reflexivity. Qed.

(** The loop as a whole: it only allocates and only writes own properties
    of [P'], one per key; keys it does not run through stay absent, and a
    key whose child value is a primitive ends up holding that value. *)
Lemma extension_fold_spec P' c keys : forall cur o0,
  NoDup keys ->
  cur !! P' = Some o0 -> elems o0 = None -> c < P' ->
  let fin := fold_left (assign_heap P' c) keys cur in
  length cur <= length fin
  /\ (forall j, j < length cur -> j <> P' -> fin !! j = cur !! j)
  /\ exists ps,
       fin !! P' = Some (mkObj (proto o0) ps (code o0) None)
       /\ (forall key, key ∉ keys -> assoc key ps = assoc key (props o0))
       /\ (forall key, key ∈ keys -> (forall d, get_prop cur c key <> VObj d) ->
             exists e, assoc key ps = Some (mkProp (get_prop cur c key) e)).
Proof.
  induction keys as [|k ks IH]; intros cur o0 Hnd Ho He Hc fin.
  - subst fin. simpl. split; [lia|]. split; [auto|].
    exists (props o0). split; [|split].
    + rewrite Ho. destruct o0. simpl in *. subst. reflexivity.
    + auto.
    + intros key Hk. inversion Hk.
  - apply NoDup_cons in Hnd as [Hk Hnd]. subst fin. simpl.
    assert (Hp : plain cur P') by (exists o0; auto).
    pose proof (plain_lt _ _ Hp) as HP.
    pose proof (assign_heap_assigned P' c cur k Hp) as Ha.
    pose proof (assigned_agree P' k cur _ c Ha Hc HP) as Hagree.
    destruct Ha as [Hlen Hother (o & v & Ho1 & _ & Ho' & Hv)].
    rewrite Ho in Ho1. injection Ho1 as <-.
    set (cur1 := assign_heap P' c cur k) in *.
    destruct (IH cur1 _ Hnd Ho' eq_refl Hc) as (Hlen' & Hother' & ps & Hps & Hout & Hin).
    simpl in Hps, Hout.
    split; [lia|]. split.
    + intros j Hj Hne. rewrite Hother' by (auto; lia). apply Hother; auto.
    + exists ps. split; [exact Hps|]. split.
      * intros key Hkey. rewrite Hout.
        -- apply assoc_put_other. intros ->. apply Hkey. left.
        -- intros Hin'. apply Hkey. right. exact Hin'.
      * intros key [->|Hkey]%elem_of_cons Hprim.
        -- rewrite (Hout k Hk). eexists.
           assert (v = get_prop cur c k) as ->.
           { rewrite Hv. subst cur1. rewrite (assign_heap_primitive _ _ _ _ Hprim).
             apply (store_get_prop_same cur P' k). apply store_or_spec. exact Hp. }
           apply assoc_put_same.
        -- rewrite (get_prop_agree key _ _ c Hagree) in Hprim |- *.
           apply Hin; assumption.
Qed.

(** ** [_extendSingle], from its first statement to the loop *)

Lemma store_app_new h ext i o key v :
  ext !! i = Some o -> elems o = None ->
  store (h ++ ext) (i + length h) key v
  = Some (h ++ <[i := mkObj (proto o) (put key v (props o)) (code o) None]> ext).
Proof.
  intros Hi He. unfold store.
  rewrite lookup_app_r by lia. replace (i + length h - length h) with i by lia.
  rewrite Hi, He. f_equal.
  rewrite insert_app_r_alt by lia. f_equal. f_equal. lia.
Qed.

Lemma lookup_app_new (h ext : list obj) i : (h ++ ext) !! (i + length h) = ext !! i.
Proof. rewrite lookup_app_r by lia. f_equal. lia. Qed.

Lemma callee_app h ext l : l < length h -> callee (h ++ ext) (VObj l) = callee h (VObj l).
Proof. intros Hl. simpl. rewrite lookup_app_l by exact Hl. reflexivity. Qed.

Lemma callee_lt h l body : callee h (VObj l) = Some body -> l < length h.
Proof.
  simpl. destruct (h !! l) eqn:Hl; [|discriminate]. intros _.
  eapply lookup_lt_Some; eauto.
Qed.

Lemma register_class_run n st T' P' name :
  get_prop (st_heap st) T' "prototype" = VObj P' ->
  to_key (get_prop (st_heap st) P' "className") = Some name ->
  run n (register_class (VObj T')) st
  = Ret (VObj T')
        (mkState (st_heap st) (st_extending st)
                 (<[name := VObj T']> (st_classes st)) (st_log st) (st_warning st)).
Proof.
  intros HT Hn. unfold register_class. rewrite run_GetP, HT, run_GetP.
  rewrite (run_Register _ _ _ _ _ _ Hn). apply run_Done.
Qed.

(** [new T()] while [extending] is set: the constructor returns at once. *)
Lemma Class_suppressed n st this args :
  truthy (st_extending st) = true ->
  run n (Class this args) st = Ret VUndef st.
Proof.
  intros He. unfold Class. rewrite run_GetExtending, He. apply run_Done.
Qed.

Section BuildPrototype.
Variables (n : nat) (t T' c P P' : loc) (cur hs : heap).
Variables (e : value) (cl : gmap string value) (lg : list value) (w : value).
Hypothesis Ht : callee cur (VObj t) = Some Class.
Hypothesis HP : get_prop cur t "prototype" = VObj P.
Hypothesis HP' : P' = length cur.
Hypothesis HT' : T' < length cur.
Hypothesis Hhs :
  store (cur ++ [mkObj (Some P) [] None None]) T' "prototype" (VObj P') = Some hs.

Lemma build_prototype_target : hs !! P' = Some (mkObj (Some P) [] None None).
Proof.
  rewrite (store_lookup_other _ _ _ _ _ P' Hhs) by lia.
  subst P'. rewrite lookup_app_r by lia. rewrite Nat.sub_diag. reflexivity.
Qed.

Lemma build_prototype_run :
  run (S n) (build_prototype (VObj t) (VObj T') (VObj c)) (mkState cur e cl lg w)
  = run (S n) (register_class (VObj T'))
        (mkState (fold_left (assign_heap P' c) (enum_chain c hs c []) hs)
                 (VBool false) cl lg w).
Proof.
  unfold build_prototype. rewrite run_SetExtending. simpl st_heap.
  rewrite (run_New n _ t [] _ Class) by exact Ht.
  rewrite Class_suppressed by reflexivity.
  simpl st_heap. unfold instance. rewrite HP. rewrite <- HP'.
  erewrite run_SetP by exact Hhs.
  rewrite run_SetExtending. st_simpl.
  erewrite run_ForIn by reflexivity. st_simpl.
  apply (extension_loop_run (S n) (mkState hs (VBool false) cl lg w) T' P' c _ _ hs).
  - lia.
  - apply (store_get_prop_same _ _ _ _ _ Hhs).
  - eexists. split; [apply build_prototype_target|reflexivity].
Qed.
End BuildPrototype.

(** The function object a Type is, once [_extendSingle] has set its static
    members and its [prototype]. *)
Definition type_object (p : loc) : obj :=
  mkObj (Some funproto)
        [("prototype", mkProp (VObj p) false);
         ("extend", mkProp extend_ref true);
         ("_extendSingle", mkProp _extendSingle_ref true);
         ("implement", mkProp implement_ref true)]
        (Some Class) None.

(** The store [_extendSingle] leaves when the Type it is called on has the
    prototype [P] and the child is the object at [c]: the new Type at
    [S (length h)], its prototype right after it, then whatever wrappers
    the loop allocates. *)
Definition extension_start (h : heap) (P : loc) : heap :=
  h ++ [fresh_prototype (S (length h));
        type_object (S (S (length h)));
        mkObj (Some P) [] None None].

Definition extended_heap (h : heap) (c P : loc) : heap :=
  fold_left (assign_heap (S (S (length h))) c) (enum_chain c h c [])
            (extension_start h P).

Lemma extension_start_type h P :
  extension_start h P !! S (length h) = Some (type_object (S (S (length h)))).
Proof. unfold extension_start. rewrite (lookup_app_new h _ 1). reflexivity. Qed.

Lemma extension_start_target h P :
  extension_start h P !! S (S (length h)) = Some (mkObj (Some P) [] None None).
Proof. unfold extension_start. rewrite (lookup_app_new h _ 2). reflexivity. Qed.

Lemma extension_start_old h P j : j < length h -> extension_start h P !! j = h !! j.
Proof. intros Hj. apply lookup_app_l. exact Hj. Qed.

Lemma extension_start_length h P : length (extension_start h P) = 3 + length h.
Proof. unfold extension_start. rewrite length_app. simpl. lia. Qed.

Lemma extendSingle_alloc m st this child :
  let h := st_heap st in
  let h1 := h ++ [fresh_prototype (S (length h)); type_object (length h)] in
  let T' := VObj (S (length h)) in
  run m (_extendSingle this [child]) st
  = run m (if is_fun h1 child
           then SetExtending (VBool true)
                  (New child [] (fun c =>
                   SetExtending (VBool false) (build_prototype this T' c)))
           else build_prototype this T' child)
        (with_heap st h1).
Proof.
  intros h h1 T'. unfold _extendSingle. cbn [arg nth]. rewrite run_MkFun. st_simpl.
  fold h.
  erewrite run_SetP
    by (st_simpl; apply (store_app_new h _ 1 (closure Class (length h))); reflexivity).
  st_simpl. cbn [insert list_insert proto props code closure put String.eqb Ascii.eqb Bool.eqb].
  erewrite run_SetP
    by (st_simpl; apply (store_app_new h _ 1); reflexivity).
  st_simpl. cbn [insert list_insert proto props code closure put String.eqb Ascii.eqb Bool.eqb].
  erewrite run_SetP
    by (st_simpl; apply (store_app_new h _ 1); reflexivity).
  st_simpl. cbn [insert list_insert proto props code closure put String.eqb Ascii.eqb Bool.eqb].
  rewrite run_IsFun. reflexivity.
Qed.

Lemma extendSingle_object_run n st t c P name :
  let h := st_heap st in
  callee h (VObj t) = Some Class ->
  get_prop h t "prototype" = VObj P ->
  c < length h ->
  is_fun h (VObj c) = false ->
  to_key (get_prop (extended_heap h c P) (S (S (length h))) "className") = Some name ->
  run (S n) (_extendSingle (VObj t) [VObj c]) st
  = Ret (VObj (S (length h)))
        (mkState (extended_heap h c P) (VBool false)
                 (<[name := VObj (S (length h))]> (st_classes st))
                 (st_log st) (st_warning st)).
Proof.
  intros h Ht HP Hc Hfun Hname.
  pose proof (callee_lt _ _ _ Ht) as Hlt.
  rewrite extendSingle_alloc. fold h. cbv zeta.
  unfold is_fun in *. rewrite callee_app by exact Hc.
  destruct (callee h (VObj c)); [discriminate|].
  set (cur := h ++ [_; _]).
  assert (Hagree : agree_upto c h (extension_start h P))
    by (apply agree_upto_app; exact Hc).
  destruct st as [h0 e cl lg w]. simpl in h. subst h. st_simpl.
  rewrite (build_prototype_run n t (S (length h0)) c P (S (S (length h0))) cur
             (extension_start h0 P)).
  - rewrite <- (enum_chain_agree _ _ c c [] Hagree).
    fold (extended_heap h0 c P).
    rewrite (register_class_run _ _ _ (S (S (length h0))) name); [reflexivity| |exact Hname].
    st_simpl. unfold extended_heap.
    destruct (extension_fold_spec (S (S (length h0))) c (enum_chain c h0 c [])
                (extension_start h0 P) (mkObj (Some P) [] None None))
      as (_ & Hother & _).
    + apply enum_chain_spec.
    + apply extension_start_target.
    + reflexivity.
    + lia.
    + rewrite <- (get_prop_agree "prototype" (extension_start h0 P) _ (S (length h0))).
      * rewrite get_prop_unfold, extension_start_type. reflexivity.
      * intros j Hj. symmetry. apply Hother; [|lia].
        rewrite extension_start_length. lia.
  - subst cur. rewrite callee_app by exact Hlt. exact Ht.
  - subst cur. rewrite <- HP. symmetry. apply get_prop_agree, agree_upto_app. exact Hlt.
  - subst cur. rewrite length_app. simpl. lia.
  - subst cur. rewrite length_app. simpl. lia.
  - subst cur. rewrite <- app_assoc. simpl app.
    etransitivity;
      [apply (store_app_new h0 _ 1 (type_object (length h0))); reflexivity|].
    reflexivity.
Qed.

(** ** The store after an extension *)

Section ExtendedHeap.
Variables (h : heap) (c P : loc).
Hypotheses (Hc : c < length h) (HP : P < length h).
Let L := length h.
Let fin := extended_heap h c P.
Let keys := enum_chain c h c [].

Lemma extended_heap_facts :
  3 + L <= length fin
  /\ (forall j, j <= S L -> fin !! j = extension_start h P !! j)
  /\ exists ps,
       fin !! S (S L) = Some (mkObj (Some P) ps None None)
       /\ (forall key, key ∉ keys -> assoc key ps = None)
       /\ (forall key, key ∈ keys -> (forall d, get_prop h c key <> VObj d) ->
             exists e, assoc key ps = Some (mkProp (get_prop h c key) e)).
Proof.
  assert (Hagree : agree_upto c h (extension_start h P))
    by (apply agree_upto_app; exact Hc).
  destruct (extension_fold_spec (S (S L)) c keys (extension_start h P)
              (mkObj (Some P) [] None None))
    as (Hlen & Hother & ps & Hps & Hout & Hin).
  - apply enum_chain_spec.
  - apply extension_start_target.
  - reflexivity.
  - subst L. lia.
  - rewrite extension_start_length in *. split; [exact Hlen|]. split.
    + intros j Hj. apply Hother; subst L; lia.
    + exists ps. split; [exact Hps|]. split; [exact Hout|].
      intros key Hkey Hprim.
      rewrite (get_prop_agree key _ _ c Hagree) in Hprim |- *. auto.
Qed.

Lemma extended_heap_old j : j < L -> fin !! j = h !! j.
Proof.
  intros Hj. destruct extended_heap_facts as (_ & Hlow & _).
  rewrite Hlow by lia. apply extension_start_old. exact Hj.
Qed.

Lemma extended_heap_type : fin !! S L = Some (type_object (S (S L))).
Proof.
  destruct extended_heap_facts as (_ & Hlow & _).
  rewrite Hlow by lia. apply extension_start_type.
Qed.

Lemma extended_heap_agree j : j < L -> agree_upto j h fin.
Proof. intros Hj i Hi. symmetry. apply extended_heap_old. lia. Qed.

Lemma extended_heap_callee : callee fin (VObj (S L)) = Some Class.
Proof. simpl. rewrite extended_heap_type. reflexivity. Qed.

Lemma extended_heap_static key :
  get_prop fin (S L) key
  = match own (type_object (S (S L))) key with
    | Some p => pval p
    | None => get_prop fin funproto key
    end.
Proof.
  rewrite get_prop_unfold, extended_heap_type.
  destruct (own _ key); [reflexivity|].
  unfold parent_of. rewrite extended_heap_type. simpl proto. cbv beta iota.
  destruct (funproto <? S L)%nat eqn:E; [reflexivity|].
  apply Nat.ltb_ge in E. unfold funproto in E. lia.
Qed.

Lemma extended_heap_parent : parent_of fin (S (S L)) = Some P.
Proof.
  destruct extended_heap_facts as (_ & _ & ps & Hps & _).
  unfold parent_of. rewrite Hps. simpl proto. cbv beta iota.
  destruct (P <? S (S L))%nat eqn:E; [reflexivity|].
  apply Nat.ltb_ge in E. subst L. lia.
Qed.

(** A key the child does not enumerate is inherited from the parent
    prototype. *)
Lemma extended_heap_inherited key :
  key ∉ keys -> get_prop fin (S (S L)) key = get_prop h P key.
Proof.
  intros Hkey. destruct extended_heap_facts as (_ & _ & ps & Hps & Hout & _).
  rewrite get_prop_unfold, Hps. unfold own, own_props. simpl.
  rewrite (Hout key Hkey), extended_heap_parent.
  symmetry. apply get_prop_agree, extended_heap_agree. exact HP.
Qed.

(** A key the child enumerates with a primitive value holds that value. *)
Lemma extended_heap_copied key :
  key ∈ keys -> (forall d, get_prop h c key <> VObj d) ->
  get_prop fin (S (S L)) key = get_prop h c key.
Proof.
  intros Hkey Hprim. destruct extended_heap_facts as (_ & _ & ps & Hps & _ & Hin).
  destruct (Hin key Hkey Hprim) as [e He].
  rewrite get_prop_unfold, Hps. unfold own, own_props. simpl. rewrite He. reflexivity.
Qed.
End ExtendedHeap.

(** ** Types *)

(** The function objects the module binds to [extend], [implement] and
    [_extendSingle] are in place. *)
Record engine (h : heap) : Prop := {
  en_extend : callee h extend_ref = Some extend;
  en_implement : callee h implement_ref = Some implement;
  en_extendSingle : callee h _extendSingle_ref = Some _extendSingle
}.

(** [t] is a Type with prototype [P]: a constructor made by
    [_extendSingle], with its static methods. *)
Record is_type (h : heap) (t P : loc) : Prop := {
  ty_class : callee h (VObj t) = Some Class;
  ty_prototype : get_prop h t "prototype" = VObj P;
  ty_bound : P < length h;
  ty_extend : callee h (get_prop h t "extend") = Some extend;
  ty_implement : callee h (get_prop h t "implement") = Some implement;
  ty_extendSingle : callee h (get_prop h t "_extendSingle") = Some _extendSingle
}.

Lemma engine_agree h h' : engine h -> agree_upto 8 h h' -> engine h'.
Proof.
  intros [H1 H2 H3] Ha. unfold extend_ref, implement_ref, _extendSingle_ref in *.
  split; simpl in *; rewrite <- (Ha _) by lia; assumption.
Qed.

Lemma engine_length h : engine h -> 8 < length h.
Proof. intros [_ _ H]. apply callee_lt in H. exact H. Qed.

(** Extending produces a Type. *)
Lemma extended_heap_is_type h c P :
  engine h -> c < length h -> P < length h ->
  is_type (extended_heap h c P) (S (length h)) (S (S (length h))).
Proof.
  intros He Hc HP. pose proof (engine_length h He) as H8.
  assert (He' : engine (extended_heap h c P)).
  { apply (engine_agree h); [exact He|]. apply extended_heap_agree; auto. }
  destruct He' as [H1 H2 H3].
  destruct (extended_heap_facts h c P Hc HP) as (Hlen & _).
  split.
  - apply extended_heap_callee; auto.
  - rewrite extended_heap_static by auto. reflexivity.
  - lia.
  - rewrite extended_heap_static by auto. exact H1.
  - rewrite extended_heap_static by auto. exact H2.
  - rewrite extended_heap_static by auto. exact H3.
Qed.

(** ** [extend] *)

Lemma extend_delegates n st t child :
  instance_of (st_heap st) child objproto = true ->
  run n (extend (VObj t) [child]) st
  = run n (method_call (VObj t) "_extendSingle" [child] Done) st.
Proof.
  intros Hi. unfold extend, method_call. cbn [arg nth].
  rewrite run_InstOf, Hi. rewrite !run_GetP.
  destruct n as [|n]; simpl; destruct (callee _ _); reflexivity.
Qed.

Lemma extend_object_run n st t P c name :
  let h := st_heap st in
  is_type h t P ->
  c < length h ->
  is_fun h (VObj c) = false ->
  instance_of h (VObj c) objproto = true ->
  to_key (get_prop (extended_heap h c P) (S (S (length h))) "className") = Some name ->
  run (S (S n)) (extend (VObj t) [VObj c]) st
  = Ret (VObj (S (length h)))
        (mkState (extended_heap h c P) (VBool false)
                 (<[name := VObj (S (length h))]> (st_classes st))
                 (st_log st) (st_warning st)).
Proof.
  intros h [Hclass Hproto Hbound _ _ Hes] Hc Hfun Hinst Hname.
  rewrite extend_delegates by exact Hinst. unfold method_call.
  rewrite run_GetP. rewrite (run_Call _ _ _ _ _ _ _ Hes).
  rewrite (extendSingle_object_run n st t c P name) by assumption.
  apply run_Done.
Qed.


(** The definition [{legs: 4}], next to the base [Class]. *)
Definition four_legged_state : state :=
  match run 0 (MkObj [("legs", VNum 4)] Done) boot with Ret _ st => st | _ => boot end.

Lemma Class_is_type : is_type (st_heap boot) 21 22.
Proof. split; first [vm_compute; reflexivity | vm_compute; lia]. Qed.

Lemma four_legged_is_type : is_type (st_heap four_legged_state) 21 22.
Proof. split; first [vm_compute; reflexivity | vm_compute; lia]. Qed.


(** The [className] a new Type shows when the Type it extends has the
    prototype [P] and the child is [c]: the child's own, if the child
    enumerates one, and the parent's otherwise. *)
Definition class_name_after (h : heap) (c P : loc) : value :=
  if bool_decide ("className" ∈ enum_chain c h c [])
  then get_prop h c "className"
  else get_prop h P "className".

Lemma to_key_primitive v s : to_key v = Some s -> forall d, v <> VObj d.
Proof. intros Hk d ->. discriminate. Qed.

Lemma extended_heap_class_name h c P name :
  c < length h -> P < length h ->
  to_key (class_name_after h c P) = Some name ->
  get_prop (extended_heap h c P) (S (S (length h))) "className" = class_name_after h c P.
Proof.
  intros Hc HP Hname. unfold class_name_after in *. case_bool_decide as Hin.
  - apply extended_heap_copied; auto. eapply to_key_primitive; eauto.
  - apply extended_heap_inherited; auto.
Qed.


Lemma boot_engine : engine (st_heap boot).
Proof. split; vm_compute; reflexivity. Qed.

Lemma four_legged_engine : engine (st_heap four_legged_state).
Proof. split; vm_compute; reflexivity. Qed.


(** An empty array and a function, next to the base [Class]. *)
Definition array_and_function_state : state :=
  match run 0 (MkArr [] (fun a => MkFun (fun _ _ => Done VUndef) (fun f => Done f))) boot
  with Ret _ st => st | _ => boot end.


(** ** Arrays *)

(** No decimal numeral is spelled [length]. *)
Lemma pretty_N_go_not_length x : forall s,
  s <> "length" -> pretty_N_go x s <> "length".
Proof.
  induction (N.lt_wf_0 x) as [x _ IH]. intros s Hs.
  destruct (N.eq_dec x 0%N) as [->|Hx]; [exact Hs|].
  rewrite pretty_N_go_step by lia. apply IH.
  - apply N.div_lt; lia.
  - unfold pretty_N_char. repeat case_match; discriminate.
Qed.

Lemma pretty_not_length (i : nat) : pretty i <> "length".
Proof.
  unfold pretty, pretty_nat, pretty, pretty_N. case_decide; [discriminate|].
  apply pretty_N_go_not_length. discriminate.
Qed.

Lemma assoc_app {A} key (ps qs : list (string * A)) :
  assoc key (ps ++ qs)
  = match assoc key ps with Some a => Some a | None => assoc key qs end.
Proof.
  induction ps as [|[k a] ps IH]; simpl; [reflexivity|].
  destruct (String.eqb k key); auto.
Qed.

Lemma assoc_indices_length (f : nat -> nat) (vs : list value) :
  assoc "length" (imap (fun i v => (pretty (f i), mkProp v true)) vs) = None.
Proof.
  revert f. induction vs as [|v vs IH]; intros f; simpl; [reflexivity|].
  destruct (String.eqb_spec (pretty (f 0)) "length") as [E|_].
  - exfalso. exact (pretty_not_length _ E).
  - apply (IH (f ∘ S)).
Qed.

Lemma assoc_indices (f : nat -> nat) (vs : list value) i v :
  Inj (=) (=) f ->
  vs !! i = Some v ->
  assoc (pretty (f i)) (imap (fun i v => (pretty (f i), mkProp v true)) vs)
  = Some (mkProp v true).
Proof.
  revert f i. induction vs as [|v0 vs IH]; intros f i Hf Hi; [discriminate|].
  simpl. destruct i as [|i]; simpl in Hi.
  - injection Hi as ->. rewrite String.eqb_refl. reflexivity.
  - destruct (String.eqb_spec (pretty (f 0)) (pretty (f (S i)))) as [E|_].
    + apply (inj pretty) in E. apply Hf in E. discriminate.
    + apply (IH (f ∘ S) i); [|exact Hi].
      intros a b Hab. apply Hf in Hab. congruence.
Qed.

Lemma array_props_length vs :
  assoc "length" (array_props vs) = Some (mkProp (VNum (Z.of_nat (length vs))) false).
Proof.
  unfold array_props. rewrite assoc_app.
  pose proof (assoc_indices_length id vs) as H. cbv beta delta [id] in H. rewrite H.
  reflexivity.
Qed.

Lemma array_props_item vs i v :
  vs !! i = Some v -> assoc (pretty i) (array_props vs) = Some (mkProp v true).
Proof.
  intros Hi. unfold array_props. rewrite assoc_app.
  pose proof (assoc_indices id vs i v _ Hi) as H. cbv beta delta [id] in H. rewrite H.
  reflexivity.
Qed.

Section ArrayReads.
Variables (h : heap) (a : loc) (o : obj) (items : list value).
Hypotheses (Ha : h !! a = Some o) (Ho : elems o = Some items).

Lemma array_length : get_prop h a "length" = VNum (Z.of_nat (length items)).
Proof.
  rewrite get_prop_unfold, Ha. unfold own, own_props. rewrite Ho.
  rewrite assoc_app, array_props_length. reflexivity.
Qed.

Lemma array_item i v : items !! i = Some v -> get_prop h a (pretty i) = v.
Proof.
  intros Hi. rewrite get_prop_unfold, Ha. unfold own, own_props. rewrite Ho.
  rewrite assoc_app, (array_props_item _ _ _ Hi). reflexivity.
Qed.
End ArrayReads.

(** No program reassigns the elements of an array: a run leaves every
    array object as it found it. *)
Definition arrays_kept (h h' : heap) : Prop :=
  forall a o, h !! a = Some o -> is_Some (elems o) -> h' !! a = Some o.

Definition final_state (r : outcome) : option state :=
  match r with
  | Ret _ st | Exn _ st => Some st
  | OutOfFuel | Unmodelled => None
  end.

Lemma arrays_kept_refl h : arrays_kept h h.
Proof. intros a o Ha _. exact Ha. Qed.

Lemma arrays_kept_trans h1 h2 h3 :
  arrays_kept h1 h2 -> arrays_kept h2 h3 -> arrays_kept h1 h3.
Proof. intros H12 H23 a o Ha He. apply H23; auto. Qed.

Lemma arrays_kept_app h ext : arrays_kept h (h ++ ext).
Proof.
  intros a o Ha _. rewrite lookup_app_l; [exact Ha|]. eapply lookup_lt_Some; eauto.
Qed.

Lemma arrays_kept_store h l key v h' : store h l key v = Some h' -> arrays_kept h h'.
Proof.
  intros Hs a o Ha [vs He]. destruct (decide (a = l)) as [->|Hne].
  - destruct (store_insert _ _ _ _ _ Hs) as (o' & Ho' & He' & _). congruence.
  - rewrite (store_lookup_other _ _ _ _ _ _ Hs Hne). exact Ha.
Qed.

Lemma exec_arrays_kept (call : prog -> state -> outcome) :
  (forall p st st', final_state (call p st) = Some st' ->
                    arrays_kept (st_heap st) (st_heap st')) ->
  forall p st st', final_state (exec call p st) = Some st' ->
                   arrays_kept (st_heap st) (st_heap st').
Proof.
  intros Hcall p.
  induction p as [| | |o key k IHk|o key v k IHk|key o k IHk|o k IHk| |
                  |fields k IHk|items k IHk|body IHbody k IHk
                  |f this args k IHk|f args k IHk| |v k IHk|name T k IHk|k IHk];
    intros st st' Hf; simpl in Hf;
    try (injection Hf as <-; apply arrays_kept_refl);
    try discriminate; eauto.
  - destruct o; try discriminate; eauto; injection Hf as <-; apply arrays_kept_refl.
  - destruct o; try (injection Hf as <-; apply arrays_kept_refl).
    destruct (st_heap st !! l); [|injection Hf as <-; apply arrays_kept_refl].
    destruct (store _ _ _ _) eqn:Hs; [|discriminate].
    eapply arrays_kept_trans; [eapply arrays_kept_store; eauto|].
    apply (IHk _ _ Hf).
  - destruct o; try (injection Hf as <-; apply arrays_kept_refl). eauto.
  - destruct (for_in_keys _ _); [eauto|discriminate].
  - eapply arrays_kept_trans; [|apply (IHk _ _ _ Hf)]. apply arrays_kept_app.
  - eapply arrays_kept_trans; [|apply (IHk _ _ _ Hf)]. apply arrays_kept_app.
  - eapply arrays_kept_trans; [|apply (IHk _ _ _ Hf)]. apply arrays_kept_app.
  - destruct (callee _ _) as [body|]; [|injection Hf as <-; apply arrays_kept_refl].
    destruct (call (body this args) st) eqn:Hc; simpl in Hf; try discriminate.
    + eapply arrays_kept_trans; [|apply (IHk _ _ _ Hf)].
      apply (Hcall (body this args) st). rewrite Hc. reflexivity.
    + injection Hf as <-. apply (Hcall (body this args) st). rewrite Hc. reflexivity.
  - destruct f; try (injection Hf as <-; apply arrays_kept_refl).
    destruct (st_heap st !! l) as [o|]; [|injection Hf as <-; apply arrays_kept_refl].
    destruct (code o) as [body|]; [|injection Hf as <-; apply arrays_kept_refl].
    destruct (call _ _) eqn:Hc; simpl in Hf; try discriminate.
    + assert (Hk : arrays_kept (st_heap st) (st_heap st0)).
      { eapply arrays_kept_trans; [apply arrays_kept_app|].
        apply (Hcall (body (VObj (length (st_heap st))) args)
                 (with_heap st (st_heap st ++ [instance (st_heap st) l]))).
        rewrite Hc. reflexivity. }
      eapply arrays_kept_trans; [exact Hk|].
      destruct v; apply (IHk _ _ _ Hf).
    + injection Hf as <-.
      eapply arrays_kept_trans; [apply arrays_kept_app|].
      apply (Hcall (body (VObj (length (st_heap st))) args)
               (with_heap st (st_heap st ++ [instance (st_heap st) l]))).
      rewrite Hc. reflexivity.
  - apply (IHk _ _ Hf).
  - destruct (to_key _); [|discriminate]. apply (IHk _ _ Hf).
  - apply (IHk _ _ Hf).
Qed.

Lemma run_arrays_kept n : forall p st st',
  final_state (run n p st) = Some st' -> arrays_kept (st_heap st) (st_heap st').
Proof.
  induction n as [|n IH]; simpl; apply exec_arrays_kept.
  - intros p st st' Hf. discriminate.
  - exact IH.
Qed.

(** ** [implement] *)

(** Follows the spec's words: the single-definition extension primitive is
    applied to the Type with the first item, then to that result with the
    second, and so on; the last result is returned. *)
Fixpoint extend_all (items : list value) (T : value) : prog :=
  match items with
  | [] => Done T
  | d :: rest => method_call T "_extendSingle" [d] (fun T' => extend_all rest T')
  end.

Lemma run_Call_cong n f this args k1 k2 st :
  (forall v st', arrays_kept (st_heap st) (st_heap st') ->
                 run n (k1 v) st' = run n (k2 v) st') ->
  run n (Call f this args k1) st = run n (Call f this args k2) st.
Proof.
  intros Hk. destruct n as [|n]; simpl; destruct (callee _ _) as [body|]; try reflexivity.
  destruct (run n (body this args) st) eqn:Hc; try reflexivity.
  apply (Hk v st0). apply (run_arrays_kept n (body this args) st). rewrite Hc. reflexivity.
Qed.

Lemma run_GetP_cong n o key k1 k2 st :
  (forall v, run n (k1 v) st = run n (k2 v) st) ->
  run n (GetP o key k1) st = run n (GetP o key k2) st.
Proof. intros Hk. destruct n; simpl; destruct o; auto; apply Hk. Qed.

Lemma implement_loop_unfold fuel child i _this :
  implement_loop fuel child i _this
  = GetP child "length" (fun len =>
      match less_than i len with
      | Some true =>
          match fuel with
          | S fuel' =>
              GetP _this "_extendSingle" (fun f =>
              GetP child (pretty i) (fun item =>
              Call f _this [item] (fun r => implement_loop fuel' child (S i) r)))
          | 0 => Beyond
          end
      | Some false => Done _this
      | None => Beyond
      end).
Proof. destruct fuel; reflexivity. Qed.

Lemma implement_loop_run n a o items : forall rest i fuel T st,
  st_heap st !! a = Some o -> elems o = Some items ->
  drop i items = rest -> length rest <= fuel ->
  run n (implement_loop fuel (VObj a) i T) st = run n (extend_all rest T) st.
Proof.
  induction rest as [|d rest IH]; intros i fuel T st Ha Ho Hd Hfuel;
    rewrite implement_loop_unfold, run_GetP, (array_length _ _ _ _ Ha Ho);
    pose proof (f_equal length Hd) as Hlen; rewrite length_drop in Hlen; simpl in Hlen.
  - simpl less_than. destruct (Z.ltb_spec (Z.of_nat i) (Z.of_nat (length items))); [lia|].
    reflexivity.
  - simpl less_than. destruct (Z.ltb_spec (Z.of_nat i) (Z.of_nat (length items))); [|lia].
    destruct fuel as [|fuel]; [simpl in Hfuel; lia|].
    assert (Hi : items !! i = Some d).
    { pose proof (lookup_drop items i 0) as E. rewrite Hd, Nat.add_0_r in E.
      symmetry. exact E. }
    simpl extend_all. unfold method_call.
    apply run_GetP_cong. intros f.
    rewrite run_GetP, (array_item _ _ _ _ Ha Ho i d Hi).
    apply run_Call_cong. intros v st' Hkept.
    apply IH.
    + apply Hkept; [exact Ha|]. rewrite Ho. eauto.
    + exact Ho.
    + rewrite (drop_S _ _ _ Hi) in Hd. injection Hd as <-. reflexivity.
    + simpl in Hfuel. lia.
Qed.

(** The [else] branch of [implement]: one single extension. *)
Lemma implement_not_array n st this child :
  instance_of (st_heap st) child arrproto = false ->
  run n (implement this [child]) st = run n (extend_all [child] this) st.
Proof.
  intros Hi. unfold implement. cbn [arg nth].
  rewrite run_InstOf, Hi. simpl. unfold method_call.
  apply run_GetP_cong. intros f. apply run_Call_cong. intros v st' _.
  rewrite !run_Done. reflexivity.
Qed.

(** C5: on an array of items, [implement] is the left-to-right chain of
    single extensions, each applied to the Type the previous one returned,
    and it returns the last Type of the chain (the Type it was called on
    when the array is empty); on anything that is not an array it is one
    single extension. *)
Theorem implement_sequential n st this child :
  let h := st_heap st in
  (forall a o items,
     child = VObj a -> h !! a = Some o -> elems o = Some items ->
     instance_of h child arrproto = true ->
     run n (implement this [child]) st = run n (extend_all items this) st)
  /\ (instance_of h child arrproto = false ->
      run n (implement this [child]) st = run n (extend_all [child] this) st).
Proof.
  intros h. split.
  - intros a o items -> Ha Ho Hi. unfold implement. cbn [arg nth].
    rewrite run_InstOf. fold h. rewrite Hi.
    rewrite run_GetP. fold h. rewrite (array_length _ _ _ _ Ha Ho).
    apply (implement_loop_run n a o items); auto.
    simpl. rewrite Nat2Z.id. reflexivity.
  - intros Hi. apply implement_not_array. exact Hi.
Qed.

Lemma implement_sequential_witness :
  let st := match run 0 (MkObj [("legs", VNum 4)] (fun d1 =>
                         MkObj [("tail", VBool true)] (fun d2 =>
                         MkObj [("species", VStr "cat")] (fun d3 =>
                         MkArr [d1; d2; d3] Done)))) boot
            with Ret _ st => st | _ => boot end in
  exists st',
    run 3 (implement Class_ref [VObj 26]) st = Ret (VObj 34) st'
    /\ run 3 (extend_all [VObj 23; VObj 24; VObj 25] Class_ref) st = Ret (VObj 34) st'
    /\ get_prop (st_heap st') 35 "legs" = VNum 4
    /\ get_prop (st_heap st') 35 "tail" = VBool true
    /\ get_prop (st_heap st') 35 "species" = VStr "cat".
Proof.
  intros st. eexists.
  destruct (implement_sequential 3 st Class_ref (VObj 26)) as [Harr _].
  rewrite (Harr 26 (array [VObj 23; VObj 24; VObj 25]) [VObj 23; VObj 24; VObj 25]
             eq_refl ltac:(vm_compute; reflexivity) eq_refl ltac:(vm_compute; reflexivity)).
  split; [vm_compute; reflexivity|].
  split; [reflexivity|]. repeat split; vm_compute; reflexivity.
Defined.

(** ** Extension by a Type: [implement(SomeType)] *)

Lemma enum_chain_fuel h n : forall m l seen,
  l <= n -> l <= m -> enum_chain n h l seen = enum_chain m h l seen.
Proof.
  induction n as [|n IH]; intros m l seen Hn Hm; destruct m as [|m]; simpl;
    destruct (h !! l) as [o|]; try reflexivity;
    destruct (visit (own_props o) seen) as [out seen']; try reflexivity;
    destruct (parent_of h l) as [l'|] eqn:Hp; try reflexivity;
    apply parent_of_lt in Hp; try lia.
  f_equal. apply IH; lia.
Qed.

Lemma enum_chain_S n h l seen :
  enum_chain (S n) h l seen
  = match h !! l with
    | None => []
    | Some o =>
        let '(out, seen') := visit (own_props o) seen in
        out ++ match parent_of h l with
               | Some l' => enum_chain n h l' seen'
               | None => []
               end
    end.
Proof. reflexivity. Qed.

(** The loop of [_extendSingle], from any store [hs] in which the new Type
    sits at [T'] and its still empty prototype at [P'], inheriting from
    [P]. *)
Section LoopFacts.
Variables (hs : heap) (T' P' c P : loc).
Hypothesis HsT : hs !! T' = Some (type_object P').
Hypothesis HsP : hs !! P' = Some (mkObj (Some P) [] None None).
Hypotheses (HT : T' < P') (Hc : c < P') (HP : P < P') (Hf : funproto < T').
Let keys := enum_chain c hs c [].
Let fin := fold_left (assign_heap P' c) keys hs.

Lemma loop_facts :
  (forall j, j < P' -> fin !! j = hs !! j)
  /\ exists ps,
       fin !! P' = Some (mkObj (Some P) ps None None)
       /\ (forall key, key ∉ keys -> assoc key ps = None)
       /\ (forall key, key ∈ keys -> (forall d, get_prop hs c key <> VObj d) ->
             exists e, assoc key ps = Some (mkProp (get_prop hs c key) e)).
Proof using All.
  destruct (extension_fold_spec P' c keys hs (mkObj (Some P) [] None None))
    as (_ & Hother & ps & Hps & Hout & Hin);
    [apply enum_chain_spec | exact HsP | reflexivity | exact Hc |].
  split; [|exists ps; auto].
  clear HP Hf HT Hc. intros j Hj. apply lookup_lt_Some in HsP. apply Hother; lia.
Qed.

Lemma loop_agree j : j < P' -> agree_upto j hs fin.
Proof using All. intros Hj i Hi. symmetry. apply loop_facts. lia. Qed.

Lemma loop_type : fin !! T' = Some (type_object P').
Proof using All. destruct loop_facts as [Hlow _]. rewrite Hlow by exact HT. exact HsT. Qed.

Lemma loop_static key :
  get_prop fin T' key
  = match own (type_object P') key with
    | Some p => pval p
    | None => get_prop fin funproto key
    end.
Proof using All.
  rewrite get_prop_unfold, loop_type. destruct (own _ key); [reflexivity|].
  unfold parent_of. rewrite loop_type. simpl proto. cbv beta iota.
  destruct (funproto <? T')%nat eqn:E; [reflexivity|]. apply Nat.ltb_ge in E.
  clear HP Hc HT. lia.
Qed.

Lemma loop_parent : parent_of fin P' = Some P.
Proof using All.
  destruct loop_facts as (_ & ps & Hps & _). unfold parent_of. rewrite Hps.
  simpl proto. cbv beta iota.
  destruct (P <? P')%nat eqn:E; [reflexivity|]. apply Nat.ltb_ge in E.
  clear Hc HT Hf. lia.
Qed.

Lemma loop_inherited key : key ∉ keys -> get_prop fin P' key = get_prop hs P key.
Proof using All.
  intros Hkey. destruct loop_facts as (_ & ps & Hps & Hout & _).
  rewrite get_prop_unfold, Hps. unfold own, own_props. simpl.
  rewrite (Hout key Hkey), loop_parent.
  symmetry. apply get_prop_agree, loop_agree. exact HP.
Qed.

Lemma loop_copied key :
  key ∈ keys -> (forall d, get_prop hs c key <> VObj d) ->
  get_prop fin P' key = get_prop hs c key.
Proof using All.
  intros Hkey Hprim. destruct loop_facts as (_ & ps & Hps & _ & Hin).
  destruct (Hin key Hkey Hprim) as [e He].
  rewrite get_prop_unfold, Hps. unfold own, own_props. simpl. rewrite He. reflexivity.
Qed.
End LoopFacts.

(** The store [_extendSingle] leaves when the child is itself a Type with
    prototype [Pu]: the new Type, the instance of the child, the new
    prototype, then the wrappers. *)
Definition materialized_start (h : heap) (Pu P : loc) : heap :=
  h ++ [fresh_prototype (S (length h));
        type_object (3 + length h);
        mkObj (Some Pu) [] None None;
        mkObj (Some P) [] None None].

Definition materialized_heap (h : heap) (Pu P : loc) : heap :=
  let hs := materialized_start h Pu P in
  fold_left (assign_heap (3 + length h) (2 + length h))
            (enum_chain (2 + length h) hs (2 + length h) []) hs.

Lemma extendSingle_type_run n st t u P Pu name :
  let h := st_heap st in
  callee h (VObj t) = Some Class ->
  get_prop h t "prototype" = VObj P ->
  P < length h ->
  callee h (VObj u) = Some Class ->
  get_prop h u "prototype" = VObj Pu ->
  to_key (get_prop (materialized_heap h Pu P) (3 + length h) "className") = Some name ->
  run (S n) (_extendSingle (VObj t) [VObj u]) st
  = Ret (VObj (S (length h)))
        (mkState (materialized_heap h Pu P) (VBool false)
                 (<[name := VObj (S (length h))]> (st_classes st))
                 (st_log st) (st_warning st)).
Proof.
  intros h Ht HP HPb Hu HPu Hname.
  pose proof (callee_lt _ _ _ Ht) as Hlt. pose proof (callee_lt _ _ _ Hu) as Hult.
  rewrite extendSingle_alloc. fold h. cbv zeta.
  unfold is_fun. rewrite callee_app by exact Hult. rewrite Hu.
  destruct st as [h0 e cl lg w]. simpl in h. subst h. st_simpl.
  set (cur := h0 ++ [_; _]).
  rewrite run_SetExtending. st_simpl.
  rewrite (run_New n _ u [] _ Class)
    by (st_simpl; subst cur; rewrite callee_app by exact Hult; exact Hu).
  rewrite Class_suppressed by reflexivity. st_simpl.
  rewrite run_SetExtending. st_simpl.
  assert (HPu' : get_prop cur u "prototype" = VObj Pu).
  { rewrite <- HPu. symmetry. apply get_prop_agree, agree_upto_app. exact Hult. }
  unfold instance. rewrite HPu'.
  assert (Hlen : length cur = 2 + length h0) by (subst cur; rewrite length_app; simpl; lia).
  rewrite Hlen.
  rewrite (build_prototype_run n t (S (length h0)) (2 + length h0) P (3 + length h0)
             (cur ++ [mkObj (Some Pu) [] None None]) (materialized_start h0 Pu P)).
  - fold (materialized_heap h0 Pu P).
    rewrite (register_class_run _ _ _ (3 + length h0) name); [reflexivity| |exact Hname].
    st_simpl. unfold materialized_heap.
    rewrite (loop_static (materialized_start h0 Pu P) (S (length h0)) (3 + length h0)
               (2 + length h0) P).
    + reflexivity.
    + unfold materialized_start. rewrite (lookup_app_new h0 _ 1). reflexivity.
    + unfold materialized_start. rewrite (lookup_app_new h0 _ 3). reflexivity.
    + lia.
    + lia.
    + lia.
    + unfold funproto. lia.
  - subst cur. rewrite <- app_assoc. rewrite callee_app by exact Hlt. exact Ht.
  - subst cur. rewrite <- app_assoc. rewrite <- HP. symmetry.
    apply get_prop_agree, agree_upto_app. exact Hlt.
  - rewrite length_app, Hlen. simpl. lia.
  - rewrite length_app, Hlen. simpl. lia.
  - subst cur. rewrite <- !app_assoc. simpl app.
    etransitivity;
      [apply (store_app_new h0 _ 1 (type_object (length h0))); reflexivity|].
    reflexivity.
Qed.

Section MaterializedHeap.
Variables (h : heap) (Pu P : loc).
Hypotheses (HPu : Pu < length h) (HP : P < length h) (H3 : 3 <= length h).
Let L := length h.
Let hs := materialized_start h Pu P.
Let fin := materialized_heap h Pu P.
Let keys := enum_chain Pu h Pu [].

Lemma materialized_start_old j : j < L -> hs !! j = h !! j.
Proof. intros Hj. apply lookup_app_l. exact Hj. Qed.

Lemma materialized_start_agree j : j < L -> agree_upto j h hs.
Proof. intros Hj. apply agree_upto_app. exact Hj. Qed.

Lemma materialized_start_type : hs !! S L = Some (type_object (3 + L)).
Proof. unfold hs, materialized_start. rewrite (lookup_app_new h _ 1). reflexivity. Qed.

Lemma materialized_start_child : hs !! (2 + L) = Some (mkObj (Some Pu) [] None None).
Proof. unfold hs, materialized_start. rewrite (lookup_app_new h _ 2). reflexivity. Qed.

Lemma materialized_start_target : hs !! (3 + L) = Some (mkObj (Some P) [] None None).
Proof. unfold hs, materialized_start. rewrite (lookup_app_new h _ 3). reflexivity. Qed.

Lemma materialized_child_parent : parent_of hs (2 + L) = Some Pu.
Proof.
  unfold parent_of. rewrite materialized_start_child. simpl proto. cbv beta iota.
  destruct (Pu <? 2 + L)%nat eqn:E; [reflexivity|]. apply Nat.ltb_ge in E. subst L. lia.
Qed.

(** The bare instance of the child Type shows what the child's prototype
    shows. *)
Lemma materialized_keys : enum_chain (2 + L) hs (2 + L) [] = keys.
Proof.
  change (enum_chain (2 + L) hs (2 + L) []) with (enum_chain (S (S L)) hs (2 + L) []).
  rewrite enum_chain_S, materialized_start_child, materialized_child_parent.
  cbn [own_props elems props visit app].
  rewrite (enum_chain_fuel hs (S L) Pu Pu []) by (subst L; lia).
  symmetry. apply enum_chain_agree, materialized_start_agree. exact HPu.
Qed.

Lemma materialized_child_get key : get_prop hs (2 + L) key = get_prop h Pu key.
Proof.
  rewrite get_prop_unfold, materialized_start_child, materialized_child_parent.
  unfold own, own_props. simpl.
  symmetry. apply get_prop_agree, materialized_start_agree. exact HPu.
Qed.

Local Ltac loop_side :=
  first [ exact materialized_start_type
        | exact materialized_start_target
        | unfold funproto; subst L; lia ].

Lemma materialized_old j : j < L -> fin !! j = h !! j.
Proof.
  intros Hj. unfold fin, materialized_heap. fold hs. fold L.
  destruct (loop_facts hs (S L) (3 + L) (2 + L) P) as [Hlow _]; try loop_side.
  rewrite Hlow by lia. apply materialized_start_old. exact Hj.
Qed.

Lemma materialized_is_type : engine h -> is_type fin (S L) (3 + L).
Proof.
  intros He. pose proof (engine_length h He) as H8.
  assert (Hagree : agree_upto 8 h fin).
  { intros j Hj. symmetry. apply materialized_old. subst L. lia. }
  destruct (engine_agree h fin He Hagree) as [H1 H2 H4].
  assert (Hstatic : forall key,
            get_prop fin (S L) key
            = match own (type_object (3 + L)) key with
              | Some p => pval p
              | None => get_prop fin funproto key
              end)
    by (apply (loop_static hs (S L) (3 + L) (2 + L) P); loop_side).
  split.
  - simpl. unfold fin, materialized_heap. fold hs L.
    rewrite (loop_type hs (S L) (3 + L) (2 + L) P) by loop_side.
    reflexivity.
  - rewrite Hstatic. reflexivity.
  - unfold fin, materialized_heap. fold hs L.
    destruct (loop_facts hs (S L) (3 + L) (2 + L) P) as (_ & ps & Hps & _);
      try loop_side.
    apply lookup_lt_Some in Hps. exact Hps.
  - rewrite Hstatic. exact H1.
  - rewrite Hstatic. exact H2.
  - rewrite Hstatic. exact H4.
Qed.

Lemma materialized_inherited key :
  key ∉ keys -> get_prop fin (3 + L) key = get_prop h P key.
Proof.
  intros Hkey. unfold fin, materialized_heap. fold hs L.
  rewrite (loop_inherited hs (S L) (3 + L) (2 + L) P)
    by first [loop_side | rewrite materialized_keys; exact Hkey].
  symmetry. apply get_prop_agree, materialized_start_agree. exact HP.
Qed.

Lemma materialized_copied key :
  key ∈ keys -> (forall d, get_prop h Pu key <> VObj d) ->
  get_prop fin (3 + L) key = get_prop h Pu key.
Proof.
  intros Hkey Hprim. unfold fin, materialized_heap. fold hs L.
  rewrite (loop_copied hs (S L) (3 + L) (2 + L) P)
    by first [loop_side
             | rewrite ?materialized_keys, ?materialized_child_get; assumption].
  apply materialized_child_get.
Qed.

Lemma materialized_class_name name :
  to_key (class_name_after h Pu P) = Some name ->
  get_prop fin (3 + L) "className" = class_name_after h Pu P.
Proof.
  intros Hname. unfold class_name_after in *. fold keys in Hname |- *.
  case_bool_decide as Hin.
  - apply materialized_copied; auto. eapply to_key_primitive; eauto.
  - apply materialized_inherited; auto.
Qed.
End MaterializedHeap.

(** ** Extension never runs [init] *)

(** What a Type can be extended with besides arrays: an object that is not
    a function, whose properties are copied, or another Type, of which
    [_extendSingle] makes an instance; [src] is the object whose properties
    the loop then finds at the head of the chain. *)
Inductive definition_source (h : heap) : value -> loc -> Prop :=
| from_object c :
    c < length h -> is_fun h (VObj c) = false ->
    definition_source h (VObj c) c
| from_type u Pu :
    callee h (VObj u) = Some Class -> get_prop h u "prototype" = VObj Pu ->
    Pu < length h ->
    definition_source h (VObj u) Pu.

Lemma implement_single_run n st t child :
  let h := st_heap st in
  callee h (get_prop h t "_extendSingle") = Some _extendSingle ->
  instance_of h child arrproto = false ->
  run (S n) (implement (VObj t) [child]) st
  = run n (_extendSingle (VObj t) [child]) st.
Proof.
  intros h Hes Harr.
  rewrite (implement_not_array (S n) st (VObj t) child Harr). simpl extend_all. unfold method_call.
  rewrite run_GetP, (run_Call _ _ _ _ _ _ _ Hes).
  destruct (run n _ st); reflexivity.
Qed.

Lemma extend_single_run n st t child :
  let h := st_heap st in
  callee h (get_prop h t "_extendSingle") = Some _extendSingle ->
  instance_of h child objproto = true ->
  run (S n) (extend (VObj t) [child]) st
  = run n (_extendSingle (VObj t) [child]) st.
Proof.
  intros h Hes Hobj. rewrite extend_delegates by exact Hobj. unfold method_call.
  rewrite run_GetP, (run_Call _ _ _ _ _ _ _ Hes).
  destruct (run n _ st); reflexivity.
Qed.


(** A counter [{n: 0}], a Type [Counted] whose [init] increments it, and an
    empty definition [{}]. *)
Definition counting : prog :=
  MkObj [("n", VNum 0)] (fun counter =>
  MkFun (fun _ _ =>
           GetP counter "n" (fun v =>
           match v with
           | VNum z => SetP counter "n" (VNum (z + 1)) (Done VUndef)
           | _ => Beyond
           end)) (fun init_ =>
  MkObj [("className", VStr "Counted"); ("init", init_)] (fun d =>
  method_call Class_ref "extend" [d] (fun Counted =>
  MkObj [] (fun empty => Done Counted))))).

Definition counting_state : state :=
  match run 3 counting boot with Ret _ st => st | _ => boot end.

Lemma counting_engine : engine (st_heap counting_state).
Proof. split; vm_compute; reflexivity. Qed.


(** ** Construction without arguments *)

Lemma instance_get h P key :
  P < length h ->
  get_prop (h ++ [mkObj (Some P) [] None None]) (length h) key = get_prop h P key.
Proof.
  intros HP. rewrite get_prop_unfold.
  rewrite lookup_app_r by lia. rewrite Nat.sub_diag. simpl.
  unfold parent_of. rewrite lookup_app_r by lia. rewrite Nat.sub_diag. simpl.
  destruct (P <? length h)%nat eqn:E; [|apply Nat.ltb_ge in E; lia].
  symmetry. apply get_prop_agree, agree_upto_app. exact HP.
Qed.

(** C10, as the code has it: let [T] be a Type whose prototype shows the
    base [init] and the base [mixin].  Outside an extension, [new T()]
    returns a fresh object that inherits from [T.prototype] and has no own
    property, and changes nothing else. *)
Theorem new_without_arguments n st t P :
  let h := st_heap st in
  callee h (VObj t) = Some Class ->
  get_prop h t "prototype" = VObj P ->
  P < length h ->
  truthy (st_extending st) = false ->
  callee h (get_prop h P "init") = Some init ->
  callee h (get_prop h P "mixin") = Some mixin ->
  run (3 + n) (New (VObj t) [] Done) st
  = Ret (VObj (length h)) (with_heap st (h ++ [mkObj (Some P) [] None None])).
Proof.
  intros h Ht HP Hbound Hflag Hinit Hmixin.
  assert (Hc : forall f body, callee h f = Some body ->
                 callee (h ++ [mkObj (Some P) [] None None]) f = Some body).
  { intros f body Hf. destruct f; try discriminate.
    rewrite callee_app; [exact Hf|]. eapply callee_lt; eauto. }
  change (3 + n) with (S (S (S n))).
  rewrite (run_New _ _ _ _ _ _ Ht). fold h. unfold instance. rewrite HP.
  unfold Class at 1. rewrite run_GetExtending. st_simpl. rewrite Hflag. simpl negb.
  cbv iota. rewrite run_GetP. st_simpl. rewrite (instance_get h P "init" Hbound).
  rewrite (run_Call _ _ _ _ _ _ init) by (st_simpl; apply Hc, Hinit).
  unfold init at 1. cbn [arg nth].
  rewrite run_GetP. st_simpl. rewrite (instance_get h P "mixin" Hbound).
  rewrite (run_Call _ _ _ _ _ _ mixin) by (st_simpl; apply Hc, Hmixin).
  unfold mixin at 1. cbn [arg nth].
  erewrite run_ForIn by reflexivity. simpl for_each.
  rewrite !run_Done. reflexivity.
Qed.

Lemma new_without_arguments_witness :
  run 3 (New Class_ref [] Done) boot
  = Ret (VObj 23) (with_heap boot (st_heap boot ++ [mkObj (Some 22) [] None None])).
Proof.
  apply (new_without_arguments 0 boot 21 22); first [vm_compute; reflexivity | vm_compute; lia].
Defined.

(** Two Types that override [mixin] and nothing else: one delegates to the
    parent, the other throws. *)
Definition overriding_mixin : prog :=
  MkFun (fun this args => method_call this "parent" args Done) (fun mixin1 =>
  MkObj [("mixin", mixin1)] (fun d1 =>
  method_call Class_ref "extend" [d1] (fun Delegating =>
  MkFun (fun _ _ => Throw (VStr "no mixin")) (fun mixin2 =>
  MkObj [("mixin", mixin2)] (fun d2 =>
  method_call Class_ref "extend" [d2] (fun Throwing =>
  Done Throwing)))))).

Definition overriding_mixin_state : state :=
  match run 3 overriding_mixin boot with Ret _ st => st | _ => boot end.

(** C10 as the claim words it fails.  The [init] of both Types is the
    inherited default.  An instance of the first, built without arguments,
    comes out with an own property, the [parent] slot the wrapper of [mixin]
    writes back; building an instance of the second throws. *)
Lemma new_claim_counterexample :
  let st := overriding_mixin_state in
  let h := st_heap st in
  (callee h (VObj 27) = Some Class
   /\ get_prop h 27 "prototype" = VObj 28
   /\ callee h (get_prop h 28 "init") = Some init
   /\ exists st',
        run 5 (New (VObj 27) [] Done) st = Ret (VObj 39) st'
        /\ (props <$> st_heap st' !! 39) = Some [("parent", mkProp VUndef true)])
  /\ (callee h (VObj 35) = Some Class
      /\ get_prop h 35 "prototype" = VObj 36
      /\ callee h (get_prop h 36 "init") = Some init
      /\ exists st',
           run 5 (New (VObj 35) [] Done) st = Exn (Raised (VStr "no mixin")) st').
Proof.
  split.
  - repeat (split; [vm_compute; reflexivity|]).
    eexists. split; vm_compute; reflexivity.
  - repeat (split; [vm_compute; reflexivity|]).
    eexists. vm_compute. reflexivity.
Qed.

(** ** Chains of overrides *)

(** [function() { return b; }] and
    [function() { return tag + this.parent(); }]. *)
Definition speak_base (b : string) : fnbody :=
  fun _ _ => Done (VStr b).

Definition speak_override (tag : string) : fnbody :=
  fun this _ =>
    method_call this "parent" [] (fun r =>
    match to_key r with
    | Some s => Done (VStr (tag +:+ s))
    | None => Beyond
    end).

(** What a chain of overrides returns: the tags of the overrides, outermost
    first, then what the base implementation returns. *)
Definition chained (b : string) (tags : list string) : string :=
  fold_left (fun acc tag => tag +:+ acc) tags b.

Lemma own_writes_weaken l ks ks' cur fin :
  (forall k, k ∈ ks -> k ∈ ks') -> own_writes l ks cur fin -> own_writes l ks' cur fin.
Proof. intros Hsub []. split; auto. Qed.

Lemma store_own_writes st l key v h' :
  store (st_heap st) l key v = Some h' -> own_writes l [key] st (with_heap st h').
Proof.
  intros Hs. split; simpl; auto.
  - destruct (store_lookup_same _ _ _ _ _ Hs) as (o & _ & _ & Ho'). eexists. eauto.
  - intros j Hj. eapply store_lookup_other; eauto.
  - intros key' j m Hk. eapply store_find_prop_other; eauto.
    intros ->. apply Hk. left.
  - intros f. eapply store_is_fun; eauto.
Qed.

Lemma own_writes_parent l a b c :
  own_writes l ["parent"] a b -> own_writes l ["parent"] b c ->
  own_writes l ["parent"] a c.
Proof.
  intros Hab Hbc. apply (own_writes_weaken l (["parent"] ++ ["parent"])).
  - intros k [Hk|Hk]%elem_of_app; exact Hk.
  - eapply own_writes_trans; eauto.
Qed.

Lemma run_Call_Done n f this args st v st' k :
  run n (Call f this args Done) st = Ret v st' ->
  run n (Call f this args k) st = run n (k v) st'.
Proof.
  destruct n as [|n]; simpl; destruct (callee _ _) as [body|]; try discriminate.
  destruct (run n (body this args) st); try discriminate.
  simpl. intros [= <- <-]. reflexivity.
Qed.

(** [answers h W s]: in every state that still holds the objects of [h], a
    call of the function [W] on a later plain object returns the string [s]
    and writes at most the receiver's [parent]. *)
Definition answers (h : heap) (W : value) (s : string) : Prop :=
  forall st o args,
    (forall j, j < length h -> st_heap st !! j = h !! j) ->
    length h <= o ->
    plain (st_heap st) o ->
    exists n st',
      run n (Call W (VObj o) args Done) st = Ret (VStr s) st'
      /\ own_writes o ["parent"] st st'.

Lemma answers_mono h h' W s :
  answers h W s ->
  (forall j, j < length h -> h' !! j = h !! j) ->
  length h <= length h' ->
  answers h' W s.
Proof.
  intros HW Hagree Hlen st o args Hst Ho Hp. apply HW; [|lia|exact Hp].
  intros j Hj. rewrite Hst by lia. apply Hagree. exact Hj.
Qed.

Lemma callee_kept h st f body :
  (forall j, j < length h -> st_heap st !! j = h !! j) ->
  callee h (VObj f) = Some body -> callee (st_heap st) (VObj f) = Some body.
Proof.
  intros Hst Hf. pose proof (callee_lt _ _ _ Hf) as Hlt.
  simpl in *. rewrite Hst by exact Hlt. exact Hf.
Qed.

Lemma answers_base h f b :
  callee h (VObj f) = Some (speak_base b) -> answers h (VObj f) b.
Proof.
  intros Hf st o args Hst Ho Hp. exists 1, st. split.
  - rewrite (run_Call _ _ _ _ _ _ _ (callee_kept h st f _ Hst Hf)).
    unfold speak_base. rewrite !run_Done. reflexivity.
  - apply (own_writes_weaken o []); [intros k Hk; inversion Hk|].
    apply own_writes_refl. exact Hp.
Qed.

(** A wrapper around the base implementation: the overridden function is
    bound to [this.parent] but never called. *)
Lemma answers_wrapped_base h w f old b :
  callee h (VObj w) = Some (createParent (VObj f) old) ->
  callee h (VObj f) = Some (speak_base b) ->
  answers h (VObj w) b.
Proof.
  intros Hw Hf st o args Hst Ho Hp.
  destruct (plain_store _ _ "parent" old Hp) as [h1 Hs1].
  destruct (store_again _ _ _ _ _ "parent" (get_prop (st_heap st) o "parent") Hs1)
    as [h2 Hs2].
  exists 2. eexists. split.
  - rewrite (run_Call _ _ _ _ _ _ _ (callee_kept h st w _ Hst Hw)).
    unfold createParent. rewrite run_GetP. run_store Hs1.
    rewrite (run_Call 0 (with_heap st h1) (VObj f) _ _ _ (speak_base b)).
    + unfold speak_base. rewrite run_Done. run_store Hs2. rewrite !run_Done. reflexivity.
    + st_simpl. rewrite (store_callee _ _ _ _ _ _ Hs1).
      apply (callee_kept h st f _ Hst Hf).
  - eapply own_writes_parent; [apply (store_own_writes st _ _ _ _ Hs1)|].
    apply (store_own_writes (with_heap st h1) _ _ _ _ Hs2).
Qed.

(** A wrapper around an override: the override calls [this.parent], which
    is the overridden function, and prefixes its tag to the answer. *)
Lemma answers_wrapped_override h w f old tag s :
  callee h (VObj w) = Some (createParent (VObj f) old) ->
  callee h (VObj f) = Some (speak_override tag) ->
  answers h old s ->
  answers h (VObj w) (tag +:+ s).
Proof.
  intros Hw Hf Hold st o args Hst Ho Hp.
  destruct (plain_store _ _ "parent" old Hp) as [h1 Hs1].
  pose proof (store_own_writes st _ _ _ _ Hs1) as F1.
  destruct (Hold (with_heap st h1) o []) as (n1 & st2 & Hrun & F2).
  { intros j Hj. st_simpl. rewrite (store_lookup_other _ _ _ _ _ _ Hs1) by lia. auto. }
  { exact Ho. }
  { apply (ow_plain _ _ _ _ F1). }
  destruct (plain_store _ _ "parent" (get_prop (st_heap st) o "parent")
              (ow_plain _ _ _ _ F2)) as [h3 Hs3].
  exists (S (S n1)). eexists. split.
  - rewrite (run_Call _ _ _ _ _ _ _ (callee_kept h st w _ Hst Hw)).
    unfold createParent. rewrite run_GetP. run_store Hs1.
    rewrite (run_Call n1 (with_heap st h1) (VObj f) _ _ _ (speak_override tag)).
    + unfold speak_override at 1, method_call. rewrite run_GetP. st_simpl.
      rewrite (store_get_prop_same _ _ _ _ _ Hs1).
      rewrite (run_Call_Done _ _ _ _ _ _ _ _ Hrun). cbv beta. simpl to_key. cbv iota.
      rewrite run_Done.
      run_store Hs3. rewrite !run_Done. reflexivity.
    + st_simpl. rewrite (store_callee _ _ _ _ _ _ Hs1).
      apply (callee_kept h st f _ Hst Hf).
  - eapply own_writes_parent; [exact F1|].
    eapply own_writes_parent; [exact F2|].
    apply (store_own_writes st2 _ _ _ _ Hs3).
Qed.

Lemma on_chain_unfold n h l p :
  on_chain n h l p
  = match parent_of h l with
    | Some l' =>
        (l' =? p)%nat || match n with S n' => on_chain n' h l' p | 0 => false end
    | None => false
    end.
Proof. destruct n; reflexivity. Qed.

(** A definition object [{m: f}] or [{className: cn, m: f}]. *)
Definition definition_fields (cls : option string) (m : string) (f : value)
  : list (string * value) :=
  match cls with
  | Some cn => [("className", VStr cn); (m, f)]
  | None => [(m, f)]
  end.

Definition definition_keys (cls : option string) (m : string) : list string :=
  match cls with
  | Some _ => ["className"; m]
  | None => [m]
  end.

Definition empty_root : obj := mkObj None [] None None.

Section Definitions.
Variables (m : string) (cls : option string) (f : value).
Hypothesis Hm : m <> "className".
Variables (h : heap) (d : loc).
Hypothesis Hd : h !! d = Some (literal (definition_fields cls m f)).
Hypothesis Hroot : h !! 0 = Some empty_root.
Hypothesis Hpos : 0 < d.

Lemma definition_props :
  props (literal (definition_fields cls m f))
  = match cls with
    | Some cn => [("className", mkProp (VStr cn) true); (m, mkProp f true)]
    | None => [(m, mkProp f true)]
    end.
Proof using All.
  destruct cls as [cn|]; cbn -[String.eqb]; [|reflexivity].
  destruct (String.eqb_spec "className" m) as [E|_]; [congruence|reflexivity].
Qed.

Lemma definition_parent : parent_of h d = Some objproto.
Proof using All.
  unfold parent_of. rewrite Hd. simpl proto. cbv beta iota.
  destruct (objproto <? d)%nat eqn:E; [reflexivity|].
  apply Nat.ltb_ge in E. unfold objproto in E. lia.
Qed.

Lemma definition_enum : enum_chain d h d [] = definition_keys cls m.
Proof using All.
  rewrite (enum_chain_fuel h d (S d) d []) by lia.
  rewrite enum_chain_S, Hd, definition_parent.
  unfold own_props. simpl elems. cbv iota. rewrite definition_props.
  assert (Hvisit : visit match cls with
                         | Some cn => [("className", mkProp (VStr cn) true); (m, mkProp f true)]
                         | None => [(m, mkProp f true)]
                         end []
                   = (definition_keys cls m, rev (definition_keys cls m))).
  { destruct cls as [cn|]; cbn -[String.eqb bool_decide].
    - rewrite (bool_decide_eq_false_2 ("className" ∈ [])) by (intros Hin; inversion Hin).
      cbn -[String.eqb bool_decide].
      rewrite (bool_decide_eq_false_2 (m ∈ ["className"]))
        by (intros Hin%list_elem_of_singleton; contradiction).
      reflexivity.
    - rewrite (bool_decide_eq_false_2 (m ∈ [])) by (intros Hin; inversion Hin).
      reflexivity. }
  rewrite Hvisit.
  rewrite (enum_chain_fuel h d 0 objproto _) by (unfold objproto; lia).
  simpl. unfold objproto. rewrite Hroot. simpl. apply app_nil_r.
Qed.

Lemma definition_method : get_prop h d m = f.
Proof using All.
  rewrite get_prop_unfold, Hd. unfold own, own_props. simpl elems. cbv iota.
  rewrite definition_props. destruct cls as [cn|]; cbn -[String.eqb].
  - destruct (String.eqb_spec "className" m) as [E|_]; [congruence|].
    rewrite String.eqb_refl. reflexivity.
  - rewrite String.eqb_refl. reflexivity.
Qed.

Lemma definition_class_name cn : cls = Some cn -> get_prop h d "className" = VStr cn.
Proof using All.
  intros Hcls. rewrite get_prop_unfold, Hd. unfold own, own_props. simpl elems. cbv iota.
  rewrite definition_props, Hcls. reflexivity.
Qed.

Lemma definition_not_function : is_fun h (VObj d) = false.
Proof using All. unfold is_fun. simpl. rewrite Hd. reflexivity. Qed.

Lemma definition_is_object : instance_of h (VObj d) objproto = true.
Proof using All.
  unfold instance_of. rewrite on_chain_unfold, definition_parent. reflexivity.
Qed.
End Definitions.

(** The method slot after extending with [{m: f}] or [{className: cn, m: f}],
    [f] a function: a wrapper around [f] and the implementation the parent
    prototype showed, when that is a function; [f] itself otherwise. *)
Section MethodExtension.
Variables (m : string) (cls : option string) (f : loc) (body : fnbody).
Variables (h : heap) (d P : loc).
Hypothesis Hm : m <> "className".
Hypothesis Hd : h !! d = Some (literal (definition_fields cls m (VObj f))).
Hypothesis Hroot : h !! 0 = Some empty_root.
Hypothesis Hpos : 0 < d.
Hypothesis Hf : callee h (VObj f) = Some body.
Hypothesis HP : P < length h.
Hypothesis Hscoped : forall j, get_prop h P m = VObj j -> j < length h.
Let L := length h.
Let P' := S (S L).
Let hs := extension_start h P.
Let old := get_prop h P m.
Let earlier : list string := match cls with Some _ => ["className"] | None => [] end.
Let mid := fold_left (assign_heap P' d) earlier hs.
Let fin := extended_heap h d P.

Lemma method_last : fin = assign_heap P' d mid m.
Proof using All.
  unfold fin, extended_heap. rewrite (definition_enum m cls (VObj f) Hm h d Hd Hroot Hpos).
  unfold mid, earlier, hs, P', L. destruct cls; reflexivity.
Qed.

Lemma method_mid :
  length hs <= length mid
  /\ (forall j, j < length hs -> j <> P' -> mid !! j = hs !! j)
  /\ exists ps, mid !! P' = Some (mkObj (Some P) ps None None) /\ assoc m ps = None.
Proof using All.
  pose proof (lookup_lt_Some _ _ _ Hd) as Hdlt.
  destruct (extension_fold_spec P' d earlier hs (mkObj (Some P) [] None None))
    as (Hlen & Hother & ps & Hps & Hout & _).
  - unfold earlier. destruct cls; repeat constructor; intros Hin; inversion Hin.
  - apply extension_start_target.
  - reflexivity.
  - unfold P', L. lia.
  - split; [exact Hlen|]. split; [exact Hother|]. exists ps. split; [exact Hps|].
    rewrite Hout; [reflexivity|]. unfold earlier. destruct cls.
    + intros Hin%list_elem_of_singleton. contradiction.
    + intros Hin. inversion Hin.
Qed.

Lemma method_mid_old j : j < L -> mid !! j = h !! j.
Proof using All.
  intros Hj. destruct method_mid as (_ & Hother & _).
  rewrite Hother; [apply extension_start_old; exact Hj | | unfold P'; lia].
  unfold hs. rewrite extension_start_length. unfold L in Hj. lia.
Qed.

Lemma method_mid_agree j : j < L -> agree_upto j h mid.
Proof using All. intros Hj i Hi. symmetry. apply method_mid_old. lia. Qed.

Lemma method_mid_plain : plain mid P'.
Proof using All.
  destruct method_mid as (_ & _ & ps & Hps & _). eexists. split; [exact Hps|reflexivity].
Qed.

Lemma method_child_value : get_prop mid d m = VObj f.
Proof using All.
  pose proof (lookup_lt_Some _ _ _ Hd) as Hdlt.
  rewrite <- (get_prop_agree m h mid d (method_mid_agree d Hdlt)).
  apply (definition_method m cls (VObj f) Hm h d Hd Hroot Hpos).
Qed.

Lemma method_old_value : get_prop mid P' m = old.
Proof using All.
  destruct method_mid as (_ & _ & ps & Hps & Hnone).
  rewrite get_prop_unfold, Hps. unfold own, own_props. simpl. rewrite Hnone.
  unfold parent_of. rewrite Hps. simpl proto. cbv beta iota.
  destruct (P <? P')%nat eqn:E; [|apply Nat.ltb_ge in E; unfold P', L in E; lia].
  symmetry. apply get_prop_agree, method_mid_agree. exact HP.
Qed.

Lemma method_old_is_fun : is_fun mid old = is_fun h old.
Proof using All.
  destruct old as [| | | | |j] eqn:E; try reflexivity.
  unfold is_fun. simpl. rewrite method_mid_old; [reflexivity|].
  apply Hscoped. exact E.
Qed.

Lemma method_child_is_fun : is_fun mid (VObj f) = true.
Proof using All.
  unfold is_fun. simpl. rewrite method_mid_old by (eapply callee_lt; eauto).
  simpl in Hf. rewrite Hf. reflexivity.
Qed.

Lemma extended_method :
  if is_fun h old
  then exists w, get_prop fin P' m = VObj w
                 /\ callee fin (VObj w) = Some (createParent (VObj f) old)
  else get_prop fin P' m = VObj f.
Proof using All.
  rewrite method_last. unfold assign_heap.
  rewrite method_child_value, method_old_value, method_child_is_fun, method_old_is_fun.
  simpl andb. destruct (is_fun h old).
  - set (ext := [_; _]).
    pose proof (store_or_spec (mid ++ ext) P' m (VObj (S (length mid)))
                  (plain_app _ ext _ method_mid_plain)) as Hs.
    exists (S (length mid)). split; [apply (store_get_prop_same _ _ _ _ _ Hs)|].
    rewrite (store_callee _ _ _ _ _ _ Hs). unfold callee.
    rewrite (lookup_app_new mid ext 1 : (mid ++ ext) !! S (length mid) = ext !! 1).
    reflexivity.
  - apply (store_get_prop_same mid P' m). apply store_or_spec, method_mid_plain.
Qed.
End MethodExtension.

(** [kept h h']: the store [h'] still holds every object of [h], unchanged. *)
Definition kept (h h' : heap) : Prop := forall j, j < length h -> h' !! j = h !! j.

Lemma kept_refl h : kept h h.
Proof. intros j _. reflexivity. Qed.

Lemma kept_length h h' : kept h h' -> length h <= length h'.
Proof.
  intros Hk. destruct (Nat.le_gt_cases (length h) (length h')) as [|Hlt]; [assumption|].
  assert (Hj : length h' < length h) by lia. specialize (Hk _ Hj).
  rewrite (lookup_ge_None_2 h') in Hk by lia.
  symmetry in Hk. apply lookup_ge_None in Hk. lia.
Qed.

Lemma kept_trans h1 h2 h3 : kept h1 h2 -> kept h2 h3 -> kept h1 h3.
Proof.
  intros H12 H23 j Hj. pose proof (kept_length _ _ H12).
  rewrite H23 by lia. apply H12. exact Hj.
Qed.

Lemma kept_app h ext : kept h (h ++ ext).
Proof. intros j Hj. apply lookup_app_l. exact Hj. Qed.

Lemma kept_agree h h' j : kept h h' -> j < length h -> agree_upto j h h'.
Proof. intros Hk Hj i Hi. symmetry. apply Hk. lia. Qed.

Lemma kept_callee h h' v body : kept h h' -> callee h v = Some body -> callee h' v = Some body.
Proof.
  intros Hk Hv. destruct v as [| | | | |j]; try discriminate.
  pose proof (callee_lt _ _ _ Hv) as Hj. simpl in *. rewrite Hk by exact Hj. exact Hv.
Qed.

Lemma kept_get_prop h h' l key : kept h h' -> l < length h -> get_prop h' l key = get_prop h l key.
Proof. intros Hk Hl. symmetry. apply get_prop_agree. eapply kept_agree; eauto. Qed.

Lemma kept_engine h h' : engine h -> kept h h' -> engine h'.
Proof.
  intros He Hk. apply (engine_agree h); [exact He|].
  apply kept_agree; [exact Hk|]. apply engine_length. exact He.
Qed.

Lemma kept_is_type h h' t P : is_type h t P -> kept h h' -> is_type h' t P.
Proof.
  intros [H1 H2 H3 H4 H5 H6] Hk. pose proof (callee_lt _ _ _ H1) as Ht.
  pose proof (kept_length _ _ Hk).
  split; rewrite ?(kept_get_prop h h' t) by assumption;
    try (eapply kept_callee; eassumption); [exact H2 | lia].
Qed.

Lemma extended_heap_kept h c P : c < length h -> P < length h -> kept h (extended_heap h c P).
Proof. intros Hc HP j Hj. apply extended_heap_old; assumption. Qed.

(** [T.extend({m: function ...})], optionally with a [className]. *)
Definition override (m : string) (cls : option string) (body : fnbody)
    (T : value) (k : value -> prog) : prog :=
  MkFun body (fun f =>
  MkObj (definition_fields cls m f) (fun d =>
  method_call T "extend" [d] k)).

(** What the steps of a chain rely on: the engine is in place, [t] is a
    Type with prototype [P], [Object.prototype] has no members, no
    extension is under way, the class name is a primitive, and [init] and
    [mixin] are the base ones unless they are the method being chained. *)
Record ready (m : string) (st : state) (t P : loc) : Prop := {
  rd_engine : engine (st_heap st);
  rd_type : is_type (st_heap st) t P;
  rd_root : st_heap st !! 0 = Some empty_root;
  rd_flag : truthy (st_extending st) = false;
  rd_name : exists name, to_key (get_prop (st_heap st) P "className") = Some name;
  rd_init : m <> "init" ->
            callee (st_heap st) (get_prop (st_heap st) P "init") = Some init;
  rd_mixin : m <> "mixin" ->
             callee (st_heap st) (get_prop (st_heap st) P "mixin") = Some mixin
}.

Lemma override_step m cls body st t P :
  let h := st_heap st in
  let old := get_prop h P m in
  m <> "className" ->
  ready m st t P ->
  (forall j, old = VObj j -> j < length h) ->
  exists st' t' P' f,
    (forall n k,
       run (S (S (S n))) (override m cls body (VObj t) k) st
       = run (S (S (S n))) (k (VObj t')) st')
    /\ ready m st' t' P'
    /\ kept h (st_heap st')
    /\ callee (st_heap st') (VObj f) = Some body
    /\ if is_fun h old
       then exists w, get_prop (st_heap st') P' m = VObj w
                      /\ callee (st_heap st') (VObj w)
                         = Some (createParent (VObj f) old)
       else get_prop (st_heap st') P' m = VObj f.
Proof.
  intros h old Hm [He Ht Hroot Hflag [name Hname] Hinit Hmixin] Hscoped.
  set (L := length h).
  assert (H8 : 8 < L) by exact (engine_length h He).
  assert (HP : P < L) by exact (ty_bound _ _ _ Ht).
  assert (Hscoped' : forall j, old = VObj j -> j < L) by exact Hscoped.
  set (h1 := h ++ [fresh_prototype (S L); closure body L]).
  set (d := length h1).
  set (h2 := h1 ++ [literal (definition_fields cls m (VObj (S L)))]).
  assert (Hk1 : kept h h1) by apply kept_app.
  assert (Hk2 : kept h h2) by (eapply kept_trans; [exact Hk1|apply kept_app]).
  assert (Hlen1 : length h1 = 2 + L) by (unfold h1; rewrite length_app; simpl; lia).
  assert (Hlen2 : length h2 = 3 + L) by (unfold h2; rewrite length_app, Hlen1; simpl; lia).
  assert (Hd : h2 !! d = Some (literal (definition_fields cls m (VObj (S L))))).
  { unfold h2, d. rewrite lookup_app_r by lia. rewrite Nat.sub_diag. reflexivity. }
  assert (Hroot2 : h2 !! 0 = Some empty_root)
    by (rewrite Hk2 by (change (0 < L); lia); exact Hroot).
  assert (Hpos : 0 < d) by (unfold d; lia).
  assert (Hdlt : d < length h2) by (unfold d; lia).
  assert (Hf : callee h2 (VObj (S L)) = Some body).
  { unfold h2. rewrite callee_app by lia. unfold h1. simpl.
    rewrite (lookup_app_new h _ 1 : (h ++ _) !! S L = _). reflexivity. }
  assert (HP2 : P < length h2) by lia.
  assert (Hold2 : get_prop h2 P m = old) by (apply kept_get_prop; assumption).
  assert (Hscoped2 : forall j, get_prop h2 P m = VObj j -> j < length h2).
  { intros j Hj. rewrite Hold2 in Hj. apply Hscoped' in Hj. lia. }
  assert (Ht2 : is_type h2 t P) by (eapply kept_is_type; eauto).
  assert (He2 : engine h2) by (eapply kept_engine; eauto).
  assert (Hkeys : enum_chain d h2 d [] = definition_keys cls m)
    by (apply (definition_enum m cls (VObj (S L)) Hm h2 d Hd Hroot2 Hpos)).
  set (cn := class_name_after h2 d P).
  assert (Hcn : exists name', to_key cn = Some name').
  { unfold cn, class_name_after. rewrite Hkeys. destruct cls as [c|]; simpl definition_keys.
    - rewrite bool_decide_eq_true_2 by left.
      rewrite (definition_class_name m (Some c) (VObj (S L)) Hm h2 d Hd Hroot2 Hpos c eq_refl).
      eexists. reflexivity.
    - rewrite bool_decide_eq_false_2
        by (intros Hin%list_elem_of_singleton; apply Hm; congruence).
      rewrite (kept_get_prop h h2 P) by assumption. eexists. exact Hname. }
  destruct Hcn as [name' Hname'].
  pose proof (extended_heap_class_name h2 d P name' Hdlt HP2 Hname') as Hclass.
  set (fin := extended_heap h2 d P) in *.
  assert (Hk3 : kept h2 fin) by (apply extended_heap_kept; assumption).
  assert (Hk : kept h fin) by (eapply kept_trans; eauto).
  exists (mkState fin (VBool false)
            (<[name' := VObj (S (length h2))]> (st_classes st)) (st_log st) (st_warning st)),
         (S (length h2)), (S (S (length h2))), (S L).
  split; [|split; [|split; [|split]]].
  - intros n k. unfold override. rewrite run_MkFun, run_MkObj. st_simpl.
    set (st2 := mkState h2 (st_extending st) (st_classes st) (st_log st) (st_warning st)).
    change (run (S (S (S n))) (method_call (VObj t) "extend" [VObj d] k) st2
            = run (S (S (S n))) (k (VObj (S (length h2))))
                  (mkState fin (VBool false)
                           (<[name' := VObj (S (length h2))]> (st_classes st2))
                           (st_log st2) (st_warning st2))).
    unfold method_call. rewrite run_GetP.
    rewrite (run_Call _ _ _ _ _ _ extend) by (apply (ty_extend _ _ _ Ht2)).
    rewrite (extend_object_run n st2 t P d name'); try assumption.
    + reflexivity.
    + apply (definition_not_function m cls (VObj (S L)) Hm h2 d Hd Hroot2 Hpos).
    + apply (definition_is_object m cls (VObj (S L)) Hm h2 d Hd Hroot2 Hpos).
    + change (st_heap st2) with h2. fold fin. rewrite Hclass. exact Hname'.
  - st_simpl. split; st_simpl.
    + eapply kept_engine; eauto.
    + apply extended_heap_is_type; assumption.
    + rewrite Hk by (change (0 < L); lia). exact Hroot.
    + reflexivity.
    + exists name'. fold fin. rewrite Hclass. exact Hname'.
    + intros Hne. unfold fin.
      rewrite (extended_heap_inherited h2 d P Hdlt HP2 "init").
      * rewrite (kept_get_prop h h2 P) by assumption.
        eapply kept_callee; [exact Hk|]. apply Hinit. exact Hne.
      * rewrite Hkeys. unfold definition_keys.
        destruct cls; intros Hin; repeat (apply elem_of_cons in Hin as [Hin|Hin]);
          try discriminate; try (apply Hne; congruence); inversion Hin.
    + intros Hne. unfold fin.
      rewrite (extended_heap_inherited h2 d P Hdlt HP2 "mixin").
      * rewrite (kept_get_prop h h2 P) by assumption.
        eapply kept_callee; [exact Hk|]. apply Hmixin. exact Hne.
      * rewrite Hkeys. unfold definition_keys.
        destruct cls; intros Hin; repeat (apply elem_of_cons in Hin as [Hin|Hin]);
          try discriminate; try (apply Hne; congruence); inversion Hin.
  - exact Hk.
  - st_simpl. eapply kept_callee; [exact Hk3|exact Hf].
  - st_simpl.
    pose proof (extended_method m cls (S L) body h2 d P Hm Hd Hroot2 Hpos Hf HP2 Hscoped2)
      as Hmethod.
    rewrite Hold2 in Hmethod.
    assert (Hfun : is_fun h2 old = is_fun h old).
    { destruct old as [| | | | |j] eqn:E; try reflexivity.
      unfold is_fun. simpl. rewrite Hk2; [reflexivity|]. apply Hscoped. reflexivity. }
    rewrite Hfun in Hmethod. exact Hmethod.
Qed.

(** The invariant of a chain: [t] is ready, and the method [m] its
    prototype shows is a function that answers [s]. *)
Record chain_inv (m : string) (st : state) (t P : loc) (s : string) : Prop := {
  ch_ready : ready m st t P;
  ch_function : is_fun (st_heap st) (get_prop (st_heap st) P m) = true;
  ch_answers : answers (st_heap st) (get_prop (st_heap st) P m) s
}.

Lemma is_fun_scoped h v j : is_fun h v = true -> v = VObj j -> j < length h.
Proof.
  unfold is_fun. intros Hf ->. destruct (callee h (VObj j)) eqn:E; [|discriminate].
  eapply callee_lt; eauto.
Qed.

Lemma callee_is_fun h v body : callee h v = Some body -> is_fun h v = true.
Proof. unfold is_fun. intros ->. reflexivity. Qed.

Lemma chain_base m cn b st t P :
  m <> "className" ->
  ready m st t P ->
  (forall j, get_prop (st_heap st) P m = VObj j -> j < length (st_heap st)) ->
  exists st' t' P',
    (forall n k,
       run (S (S (S n))) (override m (Some cn) (speak_base b) (VObj t) k) st
       = run (S (S (S n))) (k (VObj t')) st')
    /\ chain_inv m st' t' P' b.
Proof.
  intros Hm Hready Hscoped.
  destruct (override_step m (Some cn) (speak_base b) st t P Hm Hready Hscoped)
    as (st' & t' & P' & f & Hrun & Hready' & Hkept & Hf & Hmethod).
  exists st', t', P'. split; [exact Hrun|]. split; [exact Hready'| |].
  - destruct (is_fun (st_heap st) _).
    + destruct Hmethod as (w & -> & Hw). eapply callee_is_fun; eauto.
    + rewrite Hmethod. eapply callee_is_fun; eauto.
  - destruct (is_fun (st_heap st) _).
    + destruct Hmethod as (w & -> & Hw). eapply answers_wrapped_base; eauto.
    + rewrite Hmethod. apply answers_base. exact Hf.
Qed.

Lemma chain_step m tag st t P s :
  m <> "className" ->
  chain_inv m st t P s ->
  exists st' t' P',
    (forall n k,
       run (S (S (S n))) (override m None (speak_override tag) (VObj t) k) st
       = run (S (S (S n))) (k (VObj t')) st')
    /\ chain_inv m st' t' P' (tag +:+ s).
Proof.
  intros Hm [Hready Hfun Hans].
  destruct (override_step m None (speak_override tag) st t P Hm Hready)
    as (st' & t' & P' & f & Hrun & Hready' & Hkept & Hf & Hmethod).
  { intros j Hj. eapply is_fun_scoped; eauto. }
  rewrite Hfun in Hmethod. destruct Hmethod as (w & Hw & Hcode).
  exists st', t', P'. split; [exact Hrun|]. split; [exact Hready'| |]; rewrite Hw.
  - eapply callee_is_fun; eauto.
  - eapply answers_wrapped_override; eauto.
    eapply answers_mono; [exact Hans|exact Hkept|]. apply kept_length. exact Hkept.
Qed.

(** [T.extend({m: override_1}).extend({m: override_2})...]. *)
Fixpoint override_chain (m : string) (tags : list string) (T : value)
    (k : value -> prog) : prog :=
  match tags with
  | [] => k T
  | tag :: rest =>
      override m None (speak_override tag) T (fun T' => override_chain m rest T' k)
  end.

Lemma chain_run m tags : forall st t P s,
  m <> "className" ->
  chain_inv m st t P s ->
  exists st' t' P',
    (forall n k,
       run (S (S (S n))) (override_chain m tags (VObj t) k) st
       = run (S (S (S n))) (k (VObj t')) st')
    /\ chain_inv m st' t' P' (chained s tags).
Proof.
  induction tags as [|tag tags IH]; intros st t P s Hm Hinv.
  - exists st, t, P. split; [reflexivity|exact Hinv].
  - destruct (chain_step m tag st t P s Hm Hinv) as (st1 & t1 & P1 & Hrun1 & Hinv1).
    destruct (IH st1 t1 P1 (tag +:+ s) Hm Hinv1) as (st2 & t2 & P2 & Hrun2 & Hinv2).
    exists st2, t2, P2. split; [|exact Hinv2].
    intros n k. simpl override_chain. rewrite Hrun1. apply Hrun2.
Qed.

Lemma own_writes_get l keys cur fin key :
  own_writes l keys cur fin -> key ∉ keys ->
  get_prop (st_heap fin) l key = get_prop (st_heap cur) l key.
Proof. intros F Hk. unfold get_prop. rewrite (ow_keys _ _ _ _ F key l l Hk). reflexivity. Qed.

Lemma own_writes_kept h l keys cur fin :
  own_writes l keys cur fin -> length h <= l -> kept h (st_heap cur) -> kept h (st_heap fin).
Proof.
  intros F Hl Hk j Hj. rewrite (ow_other _ _ _ _ F) by lia. apply Hk. exact Hj.
Qed.

Section ChainCall.
Variables (m : string) (st : state) (t P : loc) (s : string).
Hypothesis Hinv : chain_inv m st t P s.
Let h := st_heap st.
Let o := length h.
Let W := get_prop h P m.
Let st_o := with_heap st (h ++ [mkObj (Some P) [] None None]).

Lemma chain_instance_plain : plain (st_heap st_o) o.
Proof using Type.
  exists (mkObj (Some P) [] None None). split; [|reflexivity]. unfold st_o, o. st_simpl.
  rewrite lookup_app_r by lia. rewrite Nat.sub_diag. reflexivity.
Qed.

Lemma chain_instance_kept : kept h (st_heap st_o).
Proof using Type. apply kept_app. Qed.

Lemma chain_instance_get key : get_prop (st_heap st_o) o key = get_prop h P key.
Proof using Hinv.
  apply instance_get. exact (ty_bound _ _ _ (rd_type _ _ _ _ (ch_ready _ _ _ _ _ Hinv))).
Qed.

(** The constructor body on the fresh instance: it returns, having written
    at most [parent]; nothing at all unless [m] is [init] or [mixin]. *)
Lemma chain_construct :
  exists n1 st1,
    run n1 (Class (VObj o) []) st_o = Ret VUndef st1
    /\ own_writes o ["parent"] st_o st1
    /\ (m <> "init" -> m <> "mixin" -> st1 = st_o).
Proof using Hinv.
  destruct Hinv as [[He Ht Hroot Hflag Hname Hinit Hmixin] Hfun Hans].
  assert (Hrefl : own_writes o ["parent"] st_o st_o).
  { apply (own_writes_weaken o []); [intros k Hk; inversion Hk|].
    apply own_writes_refl, chain_instance_plain. }
  assert (Hbody : forall n,
            run n (Class (VObj o) []) st_o
            = run n (Call (get_prop h P "init") (VObj o) [] (fun _ => Done VUndef)) st_o).
  { intros n. unfold Class. rewrite run_GetExtending.
    change (st_extending st_o) with (st_extending st). rewrite Hflag. simpl negb. cbv iota.
    rewrite run_GetP, chain_instance_get. reflexivity. }
  destruct (decide (m = "init")) as [Ei|Ei].
  - destruct (Hans st_o o [] chain_instance_kept (Nat.le_refl _) chain_instance_plain)
      as (n1 & st1 & Hrun & F).
    exists n1, st1. split; [|split; [exact F|congruence]].
    rewrite Hbody. rewrite <- Ei. fold h. fold W.
    rewrite (run_Call_Done _ _ _ _ _ _ _ _ Hrun). apply run_Done.
  - specialize (Hinit Ei).
    assert (Hinit' : callee (st_heap st_o) (get_prop h P "init") = Some init)
      by (eapply kept_callee; [apply chain_instance_kept|exact Hinit]).
    assert (Hinner : forall n,
              run n (init (VObj o) []) st_o
              = run n (Call (get_prop h P "mixin") (VObj o) [VUndef; VBool true]
                         (fun _ => Done VUndef)) st_o).
    { intros n. unfold init. cbn [arg nth]. rewrite run_GetP, chain_instance_get.
      reflexivity. }
    destruct (decide (m = "mixin")) as [Em|Em].
    + destruct (Hans st_o o [VUndef; VBool true] chain_instance_kept
                  (Nat.le_refl _) chain_instance_plain)
        as (n1 & st1 & Hrun & F).
      exists (S n1), st1. split; [|split; [exact F|congruence]].
      rewrite Hbody, (run_Call _ _ _ _ _ _ _ Hinit'), Hinner.
      rewrite <- Em. fold h. fold W.
      rewrite (run_Call_Done _ _ _ _ _ _ _ _ Hrun). rewrite !run_Done. reflexivity.
    + specialize (Hmixin Em).
      assert (Hmixin' : callee (st_heap st_o) (get_prop h P "mixin") = Some mixin)
        by (eapply kept_callee; [apply chain_instance_kept|exact Hmixin]).
      exists 2, st_o. split; [|split; [exact Hrefl|reflexivity]].
      rewrite Hbody, (run_Call _ _ _ _ _ _ _ Hinit'), Hinner.
      rewrite (run_Call _ _ _ _ _ _ _ Hmixin'). unfold mixin. cbn [arg nth].
      erewrite run_ForIn by reflexivity. simpl for_each. rewrite !run_Done. reflexivity.
Qed.

(** [new T().m()] returns what the chain answers. *)
Lemma chain_call :
  exists n st',
    run n (New (VObj t) [] (fun obj => method_call obj m [] Done)) st = Ret (VStr s) st'.
Proof using Hinv.
  destruct chain_construct as (n1 & st1 & Hrun1 & F & Hsame).
  assert (Hget : get_prop (st_heap st1) o m = W).
  { destruct (decide (m = "parent")) as [Ep|Ep].
    - rewrite Hsame by (rewrite Ep; discriminate). apply chain_instance_get.
    - rewrite (own_writes_get _ _ _ _ m F); [apply chain_instance_get|].
      intros Hin%list_elem_of_singleton. contradiction. }
  destruct (ch_answers _ _ _ _ _ Hinv st1 o []) as (n2 & st2 & Hrun2 & _).
  { eapply own_writes_kept; [exact F|unfold o, h; lia|apply chain_instance_kept]. }
  { unfold o, h. lia. }
  { apply (ow_plain _ _ _ _ F). }
  exists (S (n1 + n2)), st2.
  rewrite (run_New _ _ _ _ _ Class)
    by exact (ty_class _ _ _ (rd_type _ _ _ _ (ch_ready _ _ _ _ _ Hinv))).
  unfold instance.
  rewrite (ty_prototype _ _ _ (rd_type _ _ _ _ (ch_ready _ _ _ _ _ Hinv))).
  fold h o st_o.
  rewrite (run_mono n1 _ _ _ Hrun1) by (try discriminate; lia).
  unfold method_call. rewrite run_GetP, Hget.
  fold h W in Hrun2.
  apply (run_mono n2 _ _ _ Hrun2); [discriminate|lia].
Qed.
End ChainCall.

(** The base [Class] after the module has run is ready to be extended under
    any method name. *)
Lemma boot_ready m : ready m boot 21 22.
Proof.
  split.
  - exact boot_engine.
  - exact Class_is_type.
  - vm_compute. reflexivity.
  - vm_compute. reflexivity.
  - exists "Class". vm_compute. reflexivity.
  - intros _. vm_compute. reflexivity.
  - intros _. vm_compute. reflexivity.
Qed.

(** Whatever the base [Class] answers under a name is an object of the
    module's own store. *)
Lemma boot_scoped m j :
  get_prop (st_heap boot) 22 m = VObj j -> j < length (st_heap boot).
Proof.
  assert (H22 : st_heap boot !! 22
                = Some (mkObj (Some 9)
                          [("className", mkProp (VStr "Class") true);
                           ("game", mkProp VNull true);
                           ("id", mkProp VNull true);
                           ("clientID", mkProp VNull true);
                           ("init", mkProp (VObj 12) true);
                           ("mixin", mkProp (VObj 14) true);
                           ("_bindGame", mkProp (VObj 16) true);
                           ("serialize", mkProp (VObj 18) true)] None None))
    by (vm_compute; reflexivity).
  assert (H9 : st_heap boot !! 9
               = Some (mkObj (Some 0) [("constructor", mkProp (VObj 10) false)] None None))
    by (vm_compute; reflexivity).
  assert (H0 : st_heap boot !! 0 = Some empty_root) by (vm_compute; reflexivity).
  assert (HL : length (st_heap boot) = 23) by (vm_compute; reflexivity).
  rewrite HL. clear HL. unfold get_prop. rewrite find_prop_unfold, H22.
  unfold own, own_props. cbn -[String.eqb find_prop boot].
  repeat (destruct (String.eqb _ m);
          [cbv beta iota; simpl pval; intros Hv; try discriminate Hv;
           injection Hv as <-; lia|]).
  unfold parent_of. rewrite H22. cbn -[String.eqb find_prop boot].
  rewrite find_prop_unfold, H9. unfold own, own_props. cbn -[String.eqb find_prop boot].
  destruct (String.eqb _ m);
    [cbv beta iota; simpl pval; intros Hv; try discriminate Hv; injection Hv as <-; lia|].
  unfold parent_of. rewrite H9. cbn -[String.eqb find_prop boot].
  rewrite find_prop_unfold, H0. unfold parent_of. rewrite H0.
  cbn -[boot]. intros Hv. discriminate Hv.
Qed.

(** The scenario of the chain: a Base Type named [cn] whose method [m]
    returns [b], extended once per tag by a Type whose [m] returns the tag
    followed by [this.parent()], then an instance of the last Type on which
    [m] is called. *)
Definition chain_scenario (cn m b : string) (tags : list string) : prog :=
  override m (Some cn) (speak_base b) Class_ref (fun Base =>
  override_chain m tags Base (fun T =>
  New T [] (fun o => method_call o m [] Done))).



(** * Further properties of the engine *)

(** Decidable forms of two side conditions, for use on concrete stores. *)
Definition is_primitive (v : value) : bool :=
  match v with VObj _ => false | _ => true end.

Lemma is_primitive_spec v : is_primitive v = true -> forall j, v <> VObj j.
Proof. intros Hv j ->. discriminate Hv. Qed.

Definition points_below (n : nat) (v : value) : bool :=
  match v with VObj j => (j <? n)%nat | _ => true end.

Lemma points_below_spec n v : points_below n v = true -> forall j, v = VObj j -> j < n.
Proof. intros Hv j ->. apply Nat.ltb_lt. exact Hv. Qed.

(** ** The constructor and [init] *)

Lemma callee_instance h P f :
  callee (h ++ [mkObj (Some P) [] None None]) f = callee h f.
Proof.
  destruct f as [| | | | |j]; try reflexivity. simpl.
  destruct (lt_eq_lt_dec j (length h)) as [[Hj|Hj]|Hj].
  - rewrite lookup_app_l by exact Hj. reflexivity.
  - subst j. rewrite lookup_app_r by lia. rewrite Nat.sub_diag. simpl.
    rewrite (lookup_ge_None_2 h (length h)) by lia. reflexivity.
  - rewrite !lookup_ge_None_2; [reflexivity|lia|rewrite length_app; simpl; lia].
Qed.

(** What the constructor of a Type does outside an extension:
    [this.init.apply(this, arguments)] on the fresh instance, and nothing
    with what [init] returns. *)
Lemma new_calls_init n st t P args k :
  let h := st_heap st in
  callee h (VObj t) = Some Class ->
  get_prop h t "prototype" = VObj P ->
  P < length h ->
  truthy (st_extending st) = false ->
  run (S n) (New (VObj t) args k) st
  = match run n (Call (get_prop h P "init") (VObj (length h)) args (fun _ => Done VUndef))
              (with_heap st (h ++ [mkObj (Some P) [] None None])) with
    | Ret _ st' => run (S n) (k (VObj (length h))) st'
    | other => other
    end.
Proof.
  intros h Ht HP Hbound Hflag.
  rewrite (run_New _ _ _ _ _ _ Ht). fold h. unfold instance. rewrite HP.
  unfold Class at 1. rewrite run_GetExtending. st_simpl. rewrite Hflag. simpl negb.
  cbv iota. rewrite run_GetP. st_simpl. rewrite (instance_get h P "init" Hbound).
  set (st_o := mkState _ _ _ _ _).
  assert (Hv : forall v st', run n (Call (get_prop h P "init") (VObj (length h)) args
                                     (fun _ => Done VUndef)) st_o = Ret v st' ->
                             v = VUndef).
  { intros v st'. destruct n as [|n]; simpl; intros Hr;
      repeat case_match; try discriminate Hr; congruence. }
  destruct (run n _ st_o) as [v st'| | |] eqn:E; try reflexivity.
  rewrite (Hv v st' eq_refl). reflexivity.
Qed.


(** A Type whose [init] returns an object, one whose [init] throws, and one
    whose [init] is the number 5. *)
Definition three_inits : prog :=
  MkFun (fun _ _ => MkObj [("other", VBool true)] Done) (fun init1 =>
  MkObj [("init", init1)] (fun d1 =>
  method_call Class_ref "extend" [d1] (fun T1 =>
  MkFun (fun _ _ => Throw (VStr "boom")) (fun init2 =>
  MkObj [("init", init2)] (fun d2 =>
  method_call Class_ref "extend" [d2] (fun T2 =>
  MkObj [("init", VNum 5)] (fun d3 =>
  method_call Class_ref "extend" [d3] (fun T3 =>
  Done VUndef)))))))).

Definition three_inits_state : state :=
  match run 3 three_inits boot with Ret _ st => st | _ => boot end.


Lemma instance_has h P key :
  P < length h ->
  has_prop (h ++ [mkObj (Some P) [] None None]) (length h) key = has_prop h P key.
Proof.
  intros HP. rewrite has_prop_unfold.
  rewrite lookup_app_r by lia. rewrite Nat.sub_diag. simpl.
  unfold parent_of. rewrite lookup_app_r by lia. rewrite Nat.sub_diag. simpl.
  destruct (P <? length h)%nat eqn:E; [|apply Nat.ltb_ge in E; lia].
  symmetry. apply has_prop_agree, agree_upto_app. exact HP.
Qed.

Lemma is_fun_instance h P v :
  is_fun (h ++ [mkObj (Some P) [] None None]) v = is_fun h v.
Proof. unfold is_fun. rewrite callee_instance. reflexivity. Qed.


(** Properties [{id: 7, serialize: f, speed: 3, jump: f}] with [f] a
    function, next to the base [Class]. *)
Definition construction_properties : prog :=
  MkFun (fun _ _ => Done VNull) (fun f =>
  MkObj [("id", VNum 7); ("serialize", f); ("speed", VNum 3); ("jump", f)] Done).

Definition construction_properties_state : state :=
  match run 0 construction_properties boot with Ret _ st => st | _ => boot end.


(** ** [createParent]: the normal return *)

(** X3: Let [w] be a wrapper built by [createParent(child, parent)], called on
    an object.  When the child implementation returns, the wrapper returns
    the same value, and [this.parent] again reads as it did before the
    call, whatever the child did with it.  The restore is an assignment:
    the object ends with an own property [parent] even if it had none
    (holding [undefined] then), and no other key of any object is touched
    by it. *)
Theorem createParent_restores_parent
    n st l args w child parent body h1 v st2 h3 :
  let h := st_heap st in
  callee h w = Some (createParent child parent) ->
  store h l "parent" parent = Some h1 ->
  callee h child = Some body ->
  run n (body (VObj l) args) (with_heap st h1) = Ret v st2 ->
  store (st_heap st2) l "parent" (get_prop h l "parent") = Some h3 ->
  run (S (S n)) (Call w (VObj l) args Done) st = Ret v (with_heap st2 h3)
  /\ get_prop h3 l "parent" = get_prop h l "parent"
  /\ (exists o, h3 !! l = Some o /\ is_Some (own o "parent"))
  /\ (forall key j, key <> "parent" -> get_prop h3 j key = get_prop (st_heap st2) j key).
Proof.
  intros h Hw Hs Hc Hrun Hs3. split; [|split; [|split]].
  - rewrite (run_Call _ _ _ _ _ _ _ Hw). unfold createParent.
    rewrite run_GetP, (run_SetP _ _ _ _ _ _ _ Hs).
    rewrite (run_Call n (with_heap st h1) child (VObj l) args _ body)
      by (simpl; rewrite (store_callee _ _ _ _ _ child Hs); exact Hc).
    rewrite Hrun. fold h. rewrite (run_SetP _ _ _ _ _ _ _ Hs3), !run_Done. reflexivity.
  - apply (store_get_prop_same _ _ _ _ _ Hs3).
  - destruct (store_lookup_same _ _ _ _ _ Hs3) as (o & _ & He & Ho).
    eexists. split; [exact Ho|]. rewrite (own_put_same o _ _ He). eauto.
  - intros key j Hne. apply (store_get_prop_other _ _ _ _ _ _ _ Hs3). congruence.
Qed.

(** A [Base] whose [speak] returns ['base'], a [Child] whose [speak] returns
    ['child-' + this.parent()], and an instance of [Child]. *)
Definition speaking_child : prog :=
  MkFun (speak_base "base") (fun speak0 =>
  MkObj [("speak", speak0)] (fun d0 =>
  method_call Class_ref "extend" [d0] (fun Base =>
  MkFun (speak_override "child-") (fun speak1 =>
  MkObj [("speak", speak1)] (fun d1 =>
  method_call Base "extend" [d1] (fun Child =>
  New Child [] (fun o => Done o))))))).

Definition speaking_child_state : state :=
  match run 4 speaking_child boot with Ret _ st => st | _ => boot end.

Lemma createParent_restores_parent_witness :
  let st := speaking_child_state in
  has_prop (st_heap st) 37 "parent" = false
  /\ exists st',
       run 3 (Call (VObj 36) (VObj 37) [] Done) st = Ret (VStr "child-base") st'
       /\ get_prop (st_heap st') 37 "parent" = VUndef
       /\ has_prop (st_heap st') 37 "parent" = true.
Proof.
  intros st. split; [vm_compute; reflexivity|].
  eexists.
  destruct (createParent_restores_parent
              1 st 37 [] (VObj 36) (VObj 30) (VObj 24)
              (speak_override "child-")
              _ (VStr "child-base") _ _
              ltac:(vm_compute; reflexivity) ltac:(vm_compute; reflexivity)
              ltac:(vm_compute; reflexivity) ltac:(vm_compute; reflexivity)
              ltac:(vm_compute; reflexivity))
    as (Hrun & Hparent & _ & _).
  split; [exact Hrun|]. split; [|vm_compute; reflexivity].
  etransitivity; [exact Hparent|]. vm_compute. reflexivity.
Defined.

(** ** [implement]: the empty array *)

(** X4: [implement([])] returns the very value it was called on and changes
    nothing: the loop body never runs, so no Type is created or registered
    and [this._extendSingle] is not even read. *)
Theorem implement_empty_array n st this a o :
  st_heap st !! a = Some o ->
  elems o = Some [] ->
  instance_of (st_heap st) (VObj a) arrproto = true ->
  run n (implement this [VObj a]) st = Ret this st.
Proof.
  intros Ha Ho Hi. unfold implement. cbn [arg nth].
  rewrite run_InstOf, Hi, run_GetP, (array_length _ _ _ _ Ha Ho).
  rewrite (implement_loop_run n a o [] [] 0 _ this st Ha Ho eq_refl) by (simpl; lia).
  apply run_Done.
Qed.

Lemma implement_empty_array_witness :
  let st := match run 0 (MkArr [] Done) boot with Ret _ st => st | _ => boot end in
  run 0 (implement Class_ref [VObj 23]) st = Ret Class_ref st
  /\ run 0 (implement VUndef [VObj 23]) st = Ret VUndef st.
Proof.
  intros st. split.
  - apply (implement_empty_array 0 st Class_ref 23 (array [])); vm_compute; reflexivity.
  - apply (implement_empty_array 0 st VUndef 23 (array [])); vm_compute; reflexivity.
Defined.

(** ** [_bindGame]: a game that cannot allocate an id *)

(** X5: [_bindGame(game)] on an instance whose [id] is still [null] assigns
    [this.game] before it asks the game for an id.  If the game shows no
    function under [_getObjectID] the call throws a [TypeError], and if the
    allocator throws the call throws the same; either way the instance is
    left with [game] bound and [id] and [clientID] as they were. *)
Theorem bindGame_allocator_failure n st l lg h1 :
  let h := st_heap st in
  let allocator := get_prop h1 lg "_getObjectID" in
  store h l "game" (VObj lg) = Some h1 ->
  get_prop h l "id" = VNull ->
  (callee h1 allocator = None ->
     run n (_bindGame (VObj l) [VObj lg]) st = Exn TypeError (with_heap st h1))
  /\ (forall body e st2,
        callee h1 allocator = Some body ->
        run n (body (VObj lg) []) (with_heap st h1) = Exn e st2 ->
        run (S n) (_bindGame (VObj l) [VObj lg]) st = Exn e st2)
  /\ get_prop h1 l "game" = VObj lg
  /\ get_prop h1 l "id" = VNull
  /\ get_prop h1 l "clientID" = get_prop h l "clientID".
Proof.
  intros h allocator Hs Hid.
  assert (Hid1 : get_prop h1 l "id" = VNull)
    by (rewrite (store_get_prop_other _ _ _ _ _ _ _ Hs); [exact Hid|discriminate]).
  split; [|split; [|split; [|split]]].
  - intros Hnone. unfold _bindGame. cbn [arg nth].
    erewrite run_SetP by exact Hs. simpl truthy. cbv iota.
    rewrite run_GetP. simpl st_heap. rewrite Hid1. simpl is_null. cbv iota.
    rewrite run_GetP. simpl st_heap.
    apply run_Call_not_callable. exact Hnone.
  - intros body e st2 Hbody Hrun. unfold _bindGame. cbn [arg nth].
    erewrite run_SetP by exact Hs. simpl truthy. cbv iota.
    rewrite run_GetP. simpl st_heap. rewrite Hid1. simpl is_null. cbv iota.
    rewrite run_GetP. simpl st_heap.
    rewrite (run_Call n (with_heap st h1) _ (VObj lg) [] _ body Hbody).
    rewrite Hrun. reflexivity.
  - apply (store_get_prop_same _ _ _ _ _ Hs).
  - exact Hid1.
  - apply (store_get_prop_other _ _ _ _ _ _ _ Hs). discriminate.
Qed.

(** An instance of the base [Class], a game without [_getObjectID] and a
    game whose [_getObjectID] throws. *)
Definition failing_games : prog :=
  New Class_ref [] (fun o =>
  MkObj [("clientID", VStr "c1")] (fun game1 =>
  MkFun (fun _ _ => Throw (VStr "full")) (fun alloc2 =>
  MkObj [("clientID", VStr "c2"); ("_getObjectID", alloc2)] (fun game2 =>
  Done o)))).

Definition failing_games_state : state :=
  match run 3 failing_games boot with Ret _ st => st | _ => boot end.

Lemma bindGame_allocator_failure_witness :
  let st := failing_games_state in
  (exists st1,
     run 0 (_bindGame (VObj 23) [VObj 24]) st = Exn TypeError st1
     /\ get_prop (st_heap st1) 23 "game" = VObj 24
     /\ get_prop (st_heap st1) 23 "id" = VNull
     /\ get_prop (st_heap st1) 23 "clientID" = VNull)
  /\ (exists st2,
        run 1 (_bindGame (VObj 23) [VObj 27]) st = Exn (Raised (VStr "full")) st2
        /\ get_prop (st_heap st2) 23 "game" = VObj 27
        /\ get_prop (st_heap st2) 23 "id" = VNull).
Proof.
  intros st. split.
  - destruct (bindGame_allocator_failure 0 st 23 24 _
                ltac:(vm_compute; reflexivity) ltac:(vm_compute; reflexivity))
      as (Hnone & _ & Hgame & Hid & Hcl).
    eexists. split; [apply Hnone; vm_compute; reflexivity|].
    split; [exact Hgame|]. split; [exact Hid|].
    etransitivity; [exact Hcl|]. vm_compute. reflexivity.
  - destruct (bindGame_allocator_failure 0 st 23 27 _
                ltac:(vm_compute; reflexivity) ltac:(vm_compute; reflexivity))
      as (_ & Hexn & _).
    eexists. split.
    + eapply (Hexn (fun _ _ => Throw (VStr "full"))); vm_compute; reflexivity.
    + split; vm_compute; reflexivity.
Defined.

(** ** [_extendSingle]: a function definition that throws *)

(** X6: A function passed as a definition is instantiated with [extending] set.
    If its body throws, [_extendSingle] throws the same exception from the
    state the body left: the statement that clears [extending] is not
    reached.  While the flag stays set, [new T(args)] on every Type returns
    a fresh instance without running [init]. *)
Theorem extendSingle_throw_leaves_extending n st this f body e st2 :
  let h := st_heap st in
  let h1 := h ++ [fresh_prototype (S (length h)); type_object (length h)] in
  let st1 := mkState (h1 ++ [instance h1 f]) (VBool true)
                     (st_classes st) (st_log st) (st_warning st) in
  callee h (VObj f) = Some body ->
  run n (body (VObj (length h1)) []) st1 = Exn e st2 ->
  run (S n) (_extendSingle this [VObj f]) st = Exn e st2
  /\ (truthy (st_extending st2) = true ->
      forall t args m,
        callee (st_heap st2) (VObj t) = Some Class ->
        run (S m) (New (VObj t) args Done) st2
        = Ret (VObj (length (st_heap st2)))
              (with_heap st2 (st_heap st2 ++ [instance (st_heap st2) t]))).
Proof.
  intros h h1 st1 Hf Hrun. split.
  - assert (Hf1 : callee h1 (VObj f) = Some body).
    { unfold h1. rewrite callee_app; [exact Hf|]. eapply callee_lt; eauto. }
    rewrite extendSingle_alloc. fold h h1.
    unfold is_fun. rewrite Hf1. rewrite run_SetExtending. st_simpl.
    rewrite (run_New _ _ _ _ _ body) by (st_simpl; exact Hf1). st_simpl.
    fold st1. rewrite Hrun. reflexivity.
  - intros Hflag t args m Ht.
    rewrite (run_New _ _ _ _ _ _ Ht).
    rewrite Class_suppressed by (st_simpl; exact Hflag).
    apply run_Done.
Qed.

(** A function whose body throws, and properties [{id: 7}], next to the
    base [Class]. *)
Definition throwing_definition : prog :=
  MkFun (fun _ _ => Throw (VStr "boom")) (fun f =>
  MkObj [("id", VNum 7)] Done).

Definition throwing_definition_state : state :=
  match run 0 throwing_definition boot with Ret _ st => st | _ => boot end.

Lemma extendSingle_throw_witness :
  let st := throwing_definition_state in
  (exists st1, run 3 (New (VObj 21) [VObj 25] Done) st = Ret (VObj 26) st1
               /\ get_prop (st_heap st1) 26 "id" = VNum 7)
  /\ exists st2,
       run 1 (_extendSingle (VObj 21) [VObj 24]) st = Exn (Raised (VStr "boom")) st2
       /\ st_extending st2 = VBool true
       /\ exists st3, run 3 (New (VObj 21) [VObj 25] Done) st2 = Ret (VObj 29) st3
                      /\ get_prop (st_heap st3) 29 "id" = VNull.
Proof.
  intros st. split.
  - eexists. split; vm_compute; reflexivity.
  - destruct (extendSingle_throw_leaves_extending
                0 st (VObj 21) 24 (fun _ _ => Throw (VStr "boom")) (Raised (VStr "boom")) _
                ltac:(vm_compute; reflexivity) ltac:(vm_compute; reflexivity))
      as (Hrun & Hnew).
    eexists. split; [exact Hrun|]. split; [reflexivity|].
    eexists. split.
    + apply (Hnew eq_refl 21 [VObj 25] 2). vm_compute. reflexivity.
    + vm_compute. reflexivity.
Defined.

(** ** [instanceof] after an extension *)

Lemma on_chain_fuel h p n m l :
  l <= n -> l <= m -> on_chain n h l p = on_chain m h l p.
Proof.
  revert m l. induction n as [|n IH]; intros m l Hn Hm; destruct m as [|m]; simpl;
    destruct (parent_of h l) as [l'|] eqn:Hp; try reflexivity;
    apply parent_of_lt in Hp; try lia.
  f_equal. apply IH; lia.
Qed.

Lemma instance_of_unfold h l p :
  instance_of h (VObj l) p
  = match parent_of h l with
    | Some l' => (l' =? p)%nat || instance_of h (VObj l') p
    | None => false
    end.
Proof.
  simpl. rewrite on_chain_unfold.
  destruct (parent_of h l) as [l'|] eqn:Hp; [|reflexivity].
  apply parent_of_lt in Hp. destruct l as [|l]; [lia|].
  f_equal. apply on_chain_fuel; lia.
Qed.

(** The chain of a fresh instance of the Type [T']: its prototype [P'],
    then the object [P] that [P'] inherits from, then the chain of [P]. *)
Lemma instance_chain h' T' P' P q :
  get_prop h' T' "prototype" = VObj P' ->
  P' < length h' ->
  parent_of h' P' = Some P ->
  instance_of (h' ++ [instance h' T']) (VObj (length h')) q
  = (P' =? q)%nat || ((P =? q)%nat || instance_of h' (VObj P) q).
Proof.
  intros HT HP' Hparent. unfold instance. rewrite HT.
  rewrite instance_of_unfold. unfold parent_of at 1.
  rewrite lookup_app_r by lia. rewrite Nat.sub_diag. simpl proto. cbv beta iota.
  simpl lookup. cbv beta iota. simpl proto. cbv beta iota.
  rewrite (proj2 (Nat.ltb_lt P' (length h')) HP').
  f_equal.
  assert (Ha : agree_upto P' h' (h' ++ [mkObj (Some P') [] None None]))
    by (apply agree_upto_app; exact HP').
  change (instance_of ?a (VObj P') q) with (on_chain P' a P' q).
  rewrite <- (on_chain_agree q _ _ P' P' Ha).
  change (on_chain P' h' P' q) with (instance_of h' (VObj P') q).
  rewrite instance_of_unfold, Hparent. reflexivity.
Qed.

Lemma instance_of_kept h h' l q :
  kept h h' -> l < length h -> instance_of h' (VObj l) q = instance_of h (VObj l) q.
Proof.
  intros Hk Hl. simpl. symmetry. apply on_chain_agree.
  intros j Hj. symmetry. apply Hk. lia.
Qed.


(** [Animal = Class.extend({className: 'Animal'})] and
    [Cat = Class.extend({className: 'Cat'})]. *)
Definition animal_and_cat : prog :=
  MkObj [("className", VStr "Animal")] (fun d1 =>
  method_call Class_ref "extend" [d1] (fun Animal =>
  MkObj [("className", VStr "Cat")] (fun d2 =>
  method_call Class_ref "extend" [d2] (fun Cat =>
  Done VUndef)))).

Definition animal_and_cat_state : state :=
  match run 3 animal_and_cat boot with Ret _ st => st | _ => boot end.

Lemma animal_and_cat_engine : engine (st_heap animal_and_cat_state).
Proof. split; vm_compute; reflexivity. Qed.

Lemma animal_and_cat_is_type : is_type (st_heap animal_and_cat_state) 29 30.
Proof. split; first [vm_compute; reflexivity | vm_compute; lia]. Qed.

Lemma animal_and_cat_source :
  definition_source (st_heap animal_and_cat_state) (VObj 25) 26.
Proof. apply from_type; first [vm_compute; reflexivity | vm_compute; lia]. Qed.


(** ** [implement] with a Type as the definition *)



(** ** [this.parent] in a method that overrides nothing *)

(** Construction without arguments on a Type with the default [init] and
    [mixin], followed by [k]. *)
Lemma new_default_run n st t P k :
  let h := st_heap st in
  callee h (VObj t) = Some Class ->
  get_prop h t "prototype" = VObj P ->
  P < length h ->
  truthy (st_extending st) = false ->
  callee h (get_prop h P "init") = Some init ->
  callee h (get_prop h P "mixin") = Some mixin ->
  run (3 + n) (New (VObj t) [] k) st
  = run (3 + n) (k (VObj (length h)))
        (with_heap st (h ++ [mkObj (Some P) [] None None])).
Proof.
  intros h Ht HP Hbound Hflag Hinit Hmixin.
  change (3 + n) with (S (S (S n))).
  rewrite (new_calls_init _ st t P [] k Ht HP Hbound Hflag). fold h.
  set (st_o := with_heap st _).
  rewrite (run_Call (S n) st_o _ _ _ _ init)
    by (unfold st_o; st_simpl; rewrite callee_instance; exact Hinit).
  unfold init at 1. cbn [arg nth]. rewrite run_GetP.
  replace (get_prop (st_heap st_o) (length h) "mixin") with (get_prop h P "mixin")
    by (symmetry; apply (instance_get h P "mixin" Hbound)).
  rewrite (run_Call n st_o _ _ _ _ mixin)
    by (unfold st_o; st_simpl; rewrite callee_instance; exact Hmixin).
  unfold mixin at 1. cbn [arg nth].
  erewrite run_ForIn by reflexivity. simpl for_each.
  rewrite !run_Done. reflexivity.
Qed.


(** A definition [{speak: function() { return 'x-' + this.parent(); }}],
    next to the base [Class], which has no [speak]. *)
Definition orphan_method : prog :=
  MkFun (speak_override "x-") (fun f => MkObj [("speak", f)] Done).

Definition orphan_method_state : state :=
  match run 0 orphan_method boot with Ret _ st => st | _ => boot end.

Lemma orphan_method_ready : ready "speak" orphan_method_state 21 22.
Proof.
  split.
  - split; vm_compute; reflexivity.
  - split; first [vm_compute; reflexivity | vm_compute; lia].
  - vm_compute. reflexivity.
  - vm_compute. reflexivity.
  - exists "Class". vm_compute. reflexivity.
  - intros _. vm_compute. reflexivity.
  - intros _. vm_compute. reflexivity.
Qed.


(** ** What a new Type inherits *)

(** The Type and state an extension produces, whether the definition is an
    object or a Type, with what its prototype and the Type object show. *)
Lemma extension_outcome n st t P child src name :
  let h := st_heap st in
  let keys := enum_chain src h src [] in
  engine h ->
  is_type h t P ->
  definition_source h child src ->
  to_key (class_name_after h src P) = Some name ->
  exists T' P' st',
    run (S n) (_extendSingle (VObj t) [child]) st = Ret (VObj T') st'
    /\ is_type (st_heap st') T' P'
    /\ kept h (st_heap st')
    /\ (forall key, key ∉ keys -> get_prop (st_heap st') P' key = get_prop h P key)
    /\ (forall key, key ∈ keys -> (forall d, get_prop h src key <> VObj d) ->
          get_prop (st_heap st') P' key = get_prop h src key)
    /\ (forall key,
          get_prop (st_heap st') T' key
          = match own (type_object P') key with
            | Some p => pval p
            | None => get_prop h funproto key
            end).
Proof.
  intros h keys He Ht Hsrc Hname.
  pose proof (engine_length h He) as H8.
  destruct Ht as [Hclass Hproto Hbound Hext Himp Hes].
  destruct Hsrc as [c Hc Hfun | u Pu Hu HPu HPub].
  - exists (S (length h)), (S (S (length h))). eexists. split.
    + apply (extendSingle_object_run n st t c P name); try assumption.
      fold h. rewrite (extended_heap_class_name h c P name) by assumption.
      exact Hname.
    + st_simpl.
      assert (Hk : kept h (extended_heap h c P))
        by (apply extended_heap_kept; assumption).
      split; [apply extended_heap_is_type; assumption|].
      split; [exact Hk|].
      split; [intros key Hkey; apply extended_heap_inherited; assumption|].
      split; [intros key Hkey Hprim; apply extended_heap_copied; assumption|].
      intros key. rewrite extended_heap_static by assumption.
      destruct (own _ key); [reflexivity|].
      apply kept_get_prop; [exact Hk|unfold funproto; lia].
  - exists (S (length h)), (3 + length h). eexists. split.
    + apply (extendSingle_type_run n st t u P Pu name); try assumption.
      fold h. rewrite (materialized_class_name h Pu P) with (name := name);
        try assumption; lia.
    + st_simpl.
      assert (H3 : 3 <= length h) by lia.
      assert (Hk : kept h (materialized_heap h Pu P))
        by (intros j Hj; apply materialized_old; assumption).
      split; [apply materialized_is_type; assumption|].
      split; [exact Hk|].
      split; [intros key Hkey; apply materialized_inherited; assumption|].
      split; [intros key Hkey Hprim; apply materialized_copied; assumption|].
      intros key.
      rewrite (loop_static (materialized_start h Pu P)
                 (S (length h)) (3 + length h) (2 + length h) P);
        [|apply materialized_start_type|apply materialized_start_target
         |lia|lia|lia|unfold funproto; lia].
      destruct (own _ key); [reflexivity|].
      apply (kept_get_prop h (materialized_heap h Pu P)); [exact Hk|unfold funproto; lia].
Qed.



Lemma animal_definition_source :
  definition_source (st_heap animal_and_cat_state) (VObj 23) 23.
Proof. apply from_object; first [vm_compute; reflexivity | vm_compute; lia]. Qed.


(** [Cat.count = 5], with [Animal] and [Cat] as above. *)
Definition counted_cat_state : state :=
  match run 0 (SetP (VObj 29) "count" (VNum 5) (Done VUndef)) animal_and_cat_state with
  | Ret _ st => st
  | _ => boot
  end.

Lemma counted_cat_engine : engine (st_heap counted_cat_state).
Proof. split; vm_compute; reflexivity. Qed.

Lemma counted_cat_is_type : is_type (st_heap counted_cat_state) 29 30.
Proof. split; first [vm_compute; reflexivity | vm_compute; lia]. Qed.

Lemma counted_cat_source : definition_source (st_heap counted_cat_state) (VObj 23) 23.
Proof. apply from_object; first [vm_compute; reflexivity | vm_compute; lia]. Qed.


(** ** [_bindGame] then [serialize] *)

(** X12: Binding an instance whose [id] and [clientID] are both still [null] to
    a game, and serializing it afterwards: the record carries the id the
    game's allocator returned and the game's [clientID], next to the
    instance's class name. *)
Theorem bind_then_serialize n st l lg h1 body fresh st2 h3 h4 :
  let h := st_heap st in
  store h l "game" (VObj lg) = Some h1 ->
  get_prop h l "id" = VNull ->
  callee h1 (get_prop h1 lg "_getObjectID") = Some body ->
  run n (body (VObj lg) []) (with_heap st h1) = Ret fresh st2 ->
  store (st_heap st2) l "id" fresh = Some h3 ->
  get_prop (st_heap st2) l "clientID" = VNull ->
  store h3 l "clientID" (get_prop h3 lg "clientID") = Some h4 ->
  run (S n) (_bindGame (VObj l) [VObj lg]) st = Ret VUndef (with_heap st2 h4)
  /\ forall m args,
       run m (serialize (VObj l) args) (with_heap st2 h4)
       = Ret (VObj (length h4))
             (with_heap st2
                (h4 ++ [literal [("id", fresh);
                                 ("clientID", get_prop h3 lg "clientID");
                                 ("className", get_prop (st_heap st2) l "className")]])).
Proof.
  intros h Hs Hid Hbody Hrun Hs3 Hcl Hs4.
  assert (Hid1 : get_prop h1 l "id" = VNull)
    by (rewrite (store_get_prop_other _ _ _ _ _ _ _ Hs); [exact Hid|discriminate]).
  assert (Hcl3 : get_prop h3 l "clientID" = VNull)
    by (rewrite (store_get_prop_other _ _ _ _ _ _ _ Hs3); [exact Hcl|discriminate]).
  split.
  - unfold _bindGame. cbn [arg nth].
    erewrite run_SetP by exact Hs. simpl truthy. cbv iota.
    rewrite run_GetP. simpl st_heap. rewrite Hid1. simpl is_null. cbv iota.
    rewrite run_GetP. simpl st_heap.
    rewrite (run_Call n (with_heap st h1) _ (VObj lg) [] _ body Hbody).
    rewrite Hrun. erewrite run_SetP by exact Hs3.
    rewrite run_GetP. simpl st_heap. rewrite Hcl3. simpl is_null. cbv iota.
    rewrite run_GetP. simpl st_heap. erewrite run_SetP by exact Hs4.
    apply run_Done.
  - intros m args. unfold serialize. rewrite !run_GetP, run_MkObj, run_Done.
    st_simpl.
    rewrite (store_get_prop_other _ _ _ _ _ "id" l Hs4) by discriminate.
    rewrite (store_get_prop_same _ _ _ _ _ Hs3).
    rewrite (store_get_prop_same _ _ _ _ _ Hs4).
    rewrite (store_get_prop_other _ _ _ _ _ "className" l Hs4) by discriminate.
    rewrite (store_get_prop_other _ _ _ _ _ "className" l Hs3) by discriminate.
    reflexivity.
Qed.

Lemma bind_then_serialize_witness :
  let st := two_games_state in
  exists st1 st2,
    run 1 (_bindGame (VObj 23) [VObj 26]) st = Ret VUndef st1
    /\ run 0 (serialize (VObj 23) []) st1 = Ret (VObj 30) st2
    /\ st_heap st2 !! 30
       = Some (literal [("id", VNum 7); ("clientID", VStr "c1");
                        ("className", VStr "Class")]).
Proof.
  intros st.
  destruct (bind_then_serialize 0 st 23 26 _ (fun _ _ => Done (VNum 7)) (VNum 7) _ _ _
              ltac:(vm_compute; reflexivity) ltac:(vm_compute; reflexivity)
              ltac:(vm_compute; reflexivity) ltac:(vm_compute; reflexivity)
              ltac:(vm_compute; reflexivity) ltac:(vm_compute; reflexivity)
              ltac:(vm_compute; reflexivity))
    as (Hbind & Hser).
  eexists. eexists. split; [exact Hbind|]. split; [apply Hser|].
  vm_compute. reflexivity.
Defined.

(** ** [implement] on an array of definitions: later items win *)

(** What a key shows after the definitions [ds] have been applied in order
    on top of the value [v]: the value of the last definition that
    enumerates the key. *)
Definition merged (h : heap) (ds : list loc) (key : string) (v : value) : value :=
  fold_left (fun v d =>
               if bool_decide (key ∈ enum_chain d h d []) then get_prop h d key else v)
            ds v.

(** A definition object all of whose enumerated values are primitives. *)
Definition data_definition (h : heap) (d : loc) : Prop :=
  d < length h
  /\ is_fun h (VObj d) = false
  /\ forall key, key ∈ enum_chain d h d [] -> forall j, get_prop h d key <> VObj j.

Lemma to_key_is_Some v : (forall j, v <> VObj j) -> exists s, to_key v = Some s.
Proof.
  intros Hv. destruct v as [| |[|]| | |j]; simpl; eauto.
  exfalso. apply (Hv j). reflexivity.
Qed.

Lemma is_fun_kept h h' l :
  kept h h' -> l < length h -> is_fun h' (VObj l) = is_fun h (VObj l).
Proof. intros Hk Hl. unfold is_fun. simpl. rewrite Hk by exact Hl. reflexivity. Qed.

Lemma data_definition_kept h h' d :
  kept h h' -> data_definition h d -> data_definition h' d.
Proof.
  intros Hk (Hd & Hfun & Hprim). pose proof (kept_length _ _ Hk) as Hlen.
  split; [lia|]. split.
  - rewrite (is_fun_kept h h' d Hk Hd). exact Hfun.
  - intros key Hin j.
    rewrite <- (enum_chain_agree h h' d d [] (kept_agree h h' d Hk Hd)) in Hin.
    rewrite (kept_get_prop h h' d key Hk Hd). apply Hprim. exact Hin.
Qed.

Lemma merged_kept h h' ds key : forall v,
  kept h h' -> Forall (fun d => d < length h) ds ->
  merged h' ds key v = merged h ds key v.
Proof.
  induction ds as [|d ds IH]; intros v Hk Hds; [reflexivity|].
  inversion Hds as [|? ? Hd Hrest]; subst. unfold merged in *. simpl.
  rewrite <- (enum_chain_agree h h' d d [] (kept_agree h h' d Hk Hd)).
  rewrite (kept_get_prop h h' d key Hk Hd). apply IH; assumption.
Qed.

Lemma merged_primitive h ds key : forall v,
  Forall (data_definition h) ds -> (forall j, v <> VObj j) ->
  forall j, merged h ds key v <> VObj j.
Proof.
  induction ds as [|d ds IH]; intros v Hds Hv; [exact Hv|].
  inversion Hds as [|? ? Hd Hrest]; subst. unfold merged in *. simpl.
  apply IH; [exact Hrest|]. case_bool_decide as Hin; [|exact Hv].
  apply Hd. exact Hin.
Qed.

(** The chain of single extensions over data definitions. *)
Lemma extend_all_data n ds : forall st t P,
  engine (st_heap st) ->
  is_type (st_heap st) t P ->
  Forall (data_definition (st_heap st)) ds ->
  (forall j, get_prop (st_heap st) P "className" <> VObj j) ->
  exists T' P' st',
    run (S (S n)) (extend_all (map VObj ds) (VObj t)) st = Ret (VObj T') st'
    /\ is_type (st_heap st') T' P'
    /\ kept (st_heap st) (st_heap st')
    /\ forall key,
         get_prop (st_heap st') P' key
         = merged (st_heap st) ds key (get_prop (st_heap st) P key).
Proof.
  induction ds as [|d ds IH]; intros st t P He Ht Hds Hcn.
  - exists t, P, st.
    split; [apply run_Done|]. split; [exact Ht|]. split; [apply kept_refl|]. reflexivity.
  - inversion Hds as [|? ? Hd Hrest]; subst.
    destruct Hd as (Hdlt & Hdfun & Hdprim).
    set (h := st_heap st) in *.
    assert (HP : P < length h) by exact (ty_bound _ _ _ Ht).
    assert (Hprim : forall j, class_name_after h d P <> VObj j).
    { unfold class_name_after. case_bool_decide as Hin; [apply Hdprim; exact Hin|exact Hcn]. }
    destruct (to_key_is_Some _ Hprim) as [name Hname].
    pose proof (extended_heap_class_name h d P name Hdlt HP Hname) as Hclass.
    set (fin := extended_heap h d P) in *.
    set (T1 := S (length h)).
    set (P1 := S (S (length h))) in *.
    set (st1 := mkState fin (VBool false) (<[name := VObj T1]> (st_classes st))
                        (st_log st) (st_warning st)).
    assert (Hk : kept h fin) by (apply extended_heap_kept; assumption).
    assert (Hstep : forall key,
              get_prop fin P1 key
              = if bool_decide (key ∈ enum_chain d h d [])
                then get_prop h d key else get_prop h P key).
    { intros key. case_bool_decide as Hin.
      - apply extended_heap_copied; auto.
      - apply extended_heap_inherited; auto. }
    destruct (IH st1 T1 P1) as (T' & P' & st' & Hrun & Htype & Hkept & Hval).
    + eapply kept_engine; [exact He|exact Hk].
    + apply extended_heap_is_type; assumption.
    + eapply Forall_impl; [exact Hrest|].
      intros d' Hd'. apply (data_definition_kept h fin d' Hk Hd').
    + unfold st1. st_simpl. fold fin P1. rewrite Hclass. exact Hprim.
    + exists T', P', st'. split; [|split; [|split]].
      * simpl map. simpl extend_all. unfold method_call. rewrite run_GetP.
        rewrite (run_Call _ _ _ _ _ _ _extendSingle) by (apply (ty_extendSingle _ _ _ Ht)).
        rewrite (extendSingle_object_run n st t d P name); [exact Hrun|..]; try assumption.
        -- apply (ty_class _ _ _ Ht).
        -- apply (ty_prototype _ _ _ Ht).
        -- fold h fin P1. rewrite Hclass. exact Hname.
      * exact Htype.
      * eapply kept_trans; [exact Hk|exact Hkept].
      * intros key. rewrite Hval. unfold st1. st_simpl.
        rewrite (merged_kept h fin ds key _ Hk).
        -- rewrite Hstep. reflexivity.
        -- eapply Forall_impl; [exact Hrest|]. intros d' Hd'. apply Hd'.
Qed.


(** [[{legs: 4, tail: false}, {legs: 3}, {tail: true}]], next to the base
    [Class]. *)
Definition three_definitions : prog :=
  MkObj [("legs", VNum 4); ("tail", VBool false)] (fun d1 =>
  MkObj [("legs", VNum 3)] (fun d2 =>
  MkObj [("tail", VBool true)] (fun d3 =>
  MkArr [d1; d2; d3] Done))).

Definition three_definitions_state : state :=
  match run 0 three_definitions boot with Ret _ st => st | _ => boot end.

Lemma data_definition_check h d :
  (d <? length h)%nat
  && negb (is_fun h (VObj d))
  && forallb (fun key => is_primitive (get_prop h d key)) (enum_chain d h d []) = true ->
  data_definition h d.
Proof.
  intros [[Hd Hfun]%andb_true_iff Hall]%andb_true_iff.
  split; [apply Nat.ltb_lt; exact Hd|]. split.
  - destruct (is_fun h (VObj d)); [discriminate Hfun|reflexivity].
  - intros key Hin. apply is_primitive_spec.
    rewrite forallb_forall in Hall. apply Hall, list_elem_of_In. exact Hin.
Qed.

Lemma three_definitions_data :
  Forall (data_definition (st_heap three_definitions_state)) [23; 24; 25].
Proof.
  repeat (apply List.Forall_cons;
          [apply data_definition_check; vm_compute; reflexivity|]).
  apply List.Forall_nil.
Qed.

